(** * unipdf, package extractor: utilities and the text-mark conformance harness

    A shallow embedding of [extractor/utils.go] and of the pure helpers of
    [extractor/text_test.go], with the properties the specification states
    about them. The range query over text marks, which the harness calls
    but which is declared elsewhere in the package, is modelled from
    section 4.5 of the specification in [MarkIndex].

    Conventions.
    - A Go [string] is its sequence of bytes: [gostring := list ascii].
      [len s] is the byte length as a Go [int] (modelled in [Z]).
    - A Go [float64] is a binary64 value: Rocq's primitive [float].
    - A run-time panic (slice or index out of range) is [None] in an
      [option] result. *)

From Stdlib Require Import ZArith List Bool Ascii String Floats Lia.
From Stdlib Require Import Permutation Sorted.
Import ListNotations.

#[local] Open Scope Z_scope.

(** ** Go strings *)

Definition gostring := list ascii.

Definition str (s : string) : gostring := list_ascii_of_string s.

Definition len {A : Type} (s : list A) : Z := Z.of_nat (List.length s).

(** [s[:n]]: panics unless [0 <= n <= len(s)]. *)
Definition slice_to (s : gostring) (n : Z) : option gostring :=
  if (0 <=? n) && (n <=? len s) then Some (firstn (Z.to_nat n) s) else None.

(** [s[i:j]]: panics unless [0 <= i <= j <= len(s)]. *)
Definition slice (s : gostring) (i j : Z) : option gostring :=
  if (0 <=? i) && (i <=? j) && (j <=? len s)
  then Some (firstn (Z.to_nat (j - i)) (skipn (Z.to_nat i) s))
  else None.

(** Byte-wise equality of two strings, Go's [==] on strings. *)
Fixpoint string_eqb (a b : gostring) : bool :=
  match a, b with
  | [], [] => true
  | x :: a', y :: b' => Ascii.eqb x y && string_eqb a' b'
  | _, _ => false
  end.

(** [strings.HasPrefix(s, prefix)]:
    [len(s) >= len(prefix) && s[0:len(prefix)] == prefix]. *)
Definition HasPrefix (s prefix : gostring) : bool :=
  (len prefix <=? len s) && string_eqb (firstn (List.length prefix) s) prefix.

(** [strings.HasSuffix(s, suffix)]:
    [len(s) >= len(suffix) && s[len(s)-len(suffix):] == suffix]. *)
Definition HasSuffix (s suffix : gostring) : bool :=
  (len suffix <=? len s) &&
  string_eqb (skipn (List.length s - List.length suffix) s) suffix.

(** Well-formed UTF-8, as [unicode/utf8.ValidString] accepts it: used only to
    show that a byte count can cut a character in two. *)
Definition is_cont (b : ascii) : bool :=
  let n := N_of_ascii b in ((128 <=? n) && (n <=? 191))%N.

Definition between (lo hi : N) (b : ascii) : bool :=
  let n := N_of_ascii b in ((lo <=? n) && (n <=? hi))%N.

Fixpoint utf8_valid (s : gostring) : bool :=
  match s with
  | [] => true
  | b0 :: r0 =>
      if between 0 127 b0 then utf8_valid r0
      else
        match r0 with
        | [] => false
        | b1 :: r1 =>
            if between 194 223 b0 then is_cont b1 && utf8_valid r1
            else
              match r1 with
              | [] => false
              | b2 :: r2 =>
                  if between 224 239 b0 then
                    (if between 224 224 b0 then between 160 191 b1
                     else if between 237 237 b0 then between 128 159 b1
                     else is_cont b1)
                    && is_cont b2 && utf8_valid r2
                  else
                    match r2 with
                    | [] => false
                    | b3 :: r3 =>
                        between 240 244 b0 &&
                        (if between 240 240 b0 then between 144 191 b1
                         else if between 244 244 b0 then between 128 143 b1
                         else is_cont b1)
                        && is_cont b2 && is_cont b3 && utf8_valid r3
                    end
              end
        end
  end.

(** The two bytes of U+00E9 (e with acute accent) in UTF-8. *)
Definition e_acute : gostring := [ascii_of_N 195; ascii_of_N 169].

(** ** extractor/utils.go *)

Module Utils.

(** [truncate] returns the first [n] characters in string [s].
<<
    if len(s) < n { return s }
    return s[:n]
>> *)
Definition truncate (s : gostring) (n : Z) : option gostring :=
  if len s <? n then Some s else slice_to s n.

Section ToFloatXY.

(** [core.PdfObject] and the error type of package [core] are declared
    outside this package. *)
Variable PdfObject : Type.
Variable core_error : Type.

(** [core.GetNumberAsFloat]: the numeric value of one operand, or an error
    when the operand is not a number. *)
Variable GetNumberAsFloat : PdfObject -> core_error + float.

(** Modelled from the spec: [core.GetNumbersAsFloat] is declared in package
    [core], which is not among the sources; it converts the operands in
    order and fails at the first one that cannot be converted to a float. *)
Fixpoint GetNumbersAsFloat (objs : list PdfObject) : core_error + list float :=
  match objs with
  | [] => inr []
  | o :: rest =>
      match GetNumberAsFloat o with
      | inl e => inl e
      | inr v =>
          match GetNumbersAsFloat rest with
          | inl e => inl e
          | inr vs => inr (v :: vs)
          end
      end
  end.

Inductive error : Type :=
| InvalidNumberOfParams (n : Z)   (* fmt.Errorf("invalid number of params: %d", n) *)
| CoreError (e : core_error).

(** The three results [(x, y, err)] of [toFloatXY]; [err = None] is Go's
    [nil] error. *)
Record xy_result : Type := XY { xy_x : float; xy_y : float; xy_err : option error }.

(** [floats[i]], panicking out of range. *)
Definition index (floats : list float) (i : nat) : option float := nth_error floats i.

(** [toFloatXY] returns [objs] as 2 floats, if that's what [objs] is, or an
    error if it isn't. *)
Definition toFloatXY (objs : list PdfObject) : option xy_result :=
  if negb (len objs =? 2) then
    Some (XY 0%float 0%float (Some (InvalidNumberOfParams (len objs))))
  else
    match GetNumbersAsFloat objs with
    | inl e => Some (XY 0%float 0%float (Some (CoreError e)))
    | inr floats =>
        match index floats 0, index floats 1 with
        | Some x, Some y => Some (XY x y None)
        | _, _ => None
        end
    end.

End ToFloatXY.

Arguments InvalidNumberOfParams {core_error} n.
Arguments CoreError {core_error} e.
Arguments XY {core_error} _ _ _.
Arguments xy_x {core_error} _.
Arguments xy_y {core_error} _.
Arguments xy_err {core_error} _.

(** *** Colors *)

(** [image/color.Color]: the two concrete colors the function returns.
    [color.Black] is [color.Gray16{0}]; [color.NRGBA] has four [uint8]
    channels. *)
Inductive Color : Type :=
| Gray16 (y : Z)
| NRGBA (r g b a : Z).

Definition Black : Color := Gray16 0.

(** The integer part of a finite [float64] (truncation towards zero), [None]
    for an infinity or a NaN. *)
Definition float_trunc (f : float) : option Z :=
  match Prim2SF f with
  | S754_zero _ => Some 0
  | S754_finite s m e =>
      let a := if 0 <=? e then Zpos m * 2 ^ e else Zpos m / 2 ^ (- e) in
      Some (if s then - a else a)
  | S754_infinity _ => None
  | S754_nan => None
  end.

Section PdfColor.

(** Go leaves the result of converting a float that the integer type cannot
    represent to the implementation: [unrepresentable] is that choice. *)
Variable unrepresentable : float -> Z.

(** The conversion [uint8(f)]. *)
Definition uint8 (f : float) : Z :=
  match float_trunc f with
  | Some z => if (0 <=? z) && (z <=? 255) then z else unrepresentable f mod 256
  | None => unrepresentable f mod 256
  end.

(** The colors of package [model] other than [*model.PdfColorDeviceRGB]
    (gray, CMYK, Lab, patterns, ...) are declared outside this package. *)
Variable OtherColor : Type.
Variable model_error : Type.

(** A non-nil interface value [model.PdfColor]: a pointer
    [*model.PdfColorDeviceRGB] to an array of three floats, which may itself
    be the nil pointer ([None]; an interface that holds it is not [nil]), or
    a color of another type. *)
Inductive PdfColor : Type :=
| PdfColorDeviceRGB (p : option (float * float * float))
| PdfColorOther (o : OtherColor).

(** A non-nil [model.PdfColorspace], by its method [ColorToRGB], which
    returns a color (possibly nil) and an error (possibly nil). *)
Record PdfColorspace : Type :=
  { ColorToRGB : PdfColor -> option PdfColor * option model_error }.

(** A colorspace whose [ColorToRGB] returns the color it is given, with no
    error. *)
Definition sameColor : PdfColorspace :=
  {| ColorToRGB := fun c => (Some c, None) |}.

(** [pdfColorToGoColor] converts the specified color to a Go color, using the
    provided colorspace. If unsuccessful, [color.Black] is returned.
    For [space] and [c], [None] is the nil interface value. The result
    [None] is a run-time panic: [rgb.R()] reads through the pointer [rgb],
    which the type assertion also yields ([ok] true) when it is nil. *)
Definition pdfColorToGoColor (space : option PdfColorspace) (c : option PdfColor)
  : option Color :=
  match space, c with
  | Some sp, Some col =>
      let '(conv, err) := ColorToRGB sp col in
      match err with
      | Some _ => Some Black
      | None =>
          match conv with
          | Some (PdfColorDeviceRGB (Some (r, g, b))) =>
              Some (NRGBA (uint8 (r * 255)%float) (uint8 (g * 255)%float)
                          (uint8 (b * 255)%float) 255)
          | Some (PdfColorDeviceRGB None) => None
          | _ => Some Black
          end
      end
  | _, _ => Some Black
  end.

End PdfColor.

Arguments PdfColorDeviceRGB {OtherColor} p.
Arguments PdfColorOther {OtherColor} o.

End Utils.

(** ** extractor/text_test.go: the pure helpers of the conformance harness *)

Module TextTest.

(** [model.PdfRectangle], as the literals [r(llx, lly, urx, ury)] build it. *)
Record PdfRectangle : Type :=
  r { Llx : float; Lly : float; Urx : float; Ury : float }.

(** [TextMark], as the literals [l(o, t, llx, lly, urx, ury)] build it. *)
Record TextMark : Type :=
  mkTextMark { Offset : Z; BBox : PdfRectangle; Text : gostring }.

Definition l (o : Z) (t : gostring) (llx lly urx ury : float) : TextMark :=
  mkTextMark o (r llx lly urx ury) t.

(** [tol] is the tolerance for matching coordinates: the constant [0.5001],
    which as a [float64] is the binary64 value nearest to it. *)
Definition tol : float := 0x1.000d1b71758e2p-1%float.

(** [math.Abs(a-b) <= tol] *)
Definition within_tol (a b : float) : bool :=
  PrimFloat.leb (PrimFloat.abs (a - b)%float) tol.

(** [rectEquals] returns true if [b1] and [b2] corners are within [tol] of
    each other. *)
Definition rectEquals (b1 b2 : PdfRectangle) : bool :=
  within_tol (Llx b1) (Llx b2) &&
  within_tol (Lly b1) (Lly b2) &&
  within_tol (Urx b1) (Urx b2) &&
  within_tol (Ury b1) (Ury b2).

(** [startWith] returns true if the start of [str] overlaps the end of [sub]:
<<
    for n := 0; n < len(sub); n++ {
        if strings.HasPrefix(str, sub[n:]) { return true }
    }
    return false
>> *)
Definition startWith (str sub : gostring) : bool :=
  existsb (fun n => HasPrefix str (skipn n sub)) (seq 0 (List.length sub)).

(** [endsWith] returns true if the end of [str] overlaps the start of [sub]:
<<
    for n := len(sub); n >= 1; n-- {
        if strings.HasSuffix(str, sub[:n]) { return true }
    }
    return false
>> *)
Definition endsWith (str sub : gostring) : bool :=
  existsb (fun n => HasSuffix str (firstn n sub)) (rev (seq 1 (List.length sub))).

(** The class [\s] of Go's [regexp] syntax: [[\t\n\f\r ]]. It holds ASCII
    bytes only, and no such byte occurs inside a multi-byte UTF-8 sequence,
    so matching it byte by byte is matching it rune by rune. *)
Definition isReSpace (b : ascii) : bool :=
  let n := N_of_ascii b in
  ((n =? 9) || (n =? 10) || (n =? 12) || (n =? 13) || (n =? 32))%N.

(** [reSpace.ReplaceAllString(text, " ")] for [reSpace = (?m)\s+]: scanning
    from the left, each maximal run of [\s] bytes is replaced by one space
    and everything else is copied. [in_run] tells that the byte before
    belongs to a run whose space is already written. *)
Fixpoint replaceSpaces (in_run : bool) (text : gostring) : gostring :=
  match text with
  | [] => []
  | b :: rest =>
      if isReSpace b
      then if in_run then replaceSpaces true rest
           else " "%char :: replaceSpaces true rest
      else b :: replaceSpaces false rest
  end.

Definition reSpace_ReplaceAllString (text : gostring) : gostring :=
  replaceSpaces false text.

(** The cutset [" \t\n\r\v"] of the call to [strings.Trim]. *)
Definition inCutset (b : ascii) : bool :=
  let n := N_of_ascii b in
  ((n =? 32) || (n =? 9) || (n =? 10) || (n =? 13) || (n =? 11))%N.

(** [strings.TrimLeft(s, cutset)] *)
Fixpoint TrimLeft (s : gostring) : gostring :=
  match s with
  | b :: rest => if inCutset b then TrimLeft rest else s
  | [] => []
  end.

(** [strings.TrimRight(s, cutset)] *)
Definition TrimRight (s : gostring) : gostring := rev (TrimLeft (rev s)).

(** [strings.Trim(s, cutset)] *)
Definition Trim (s : gostring) : gostring := TrimRight (TrimLeft s).

(** [reduceSpaces] returns [text] with runs of spaces of any kind (spaces,
    tabs, line breaks, etc) reduced to a single space. *)
Definition reduceSpaces (text : gostring) : gostring :=
  Trim (reSpace_ReplaceAllString text).

(** A text in which every byte of the class [\s] is a single space that
    follows no other byte of the class ([after_space]: the byte before the
    text is of the class). *)
Fixpoint clean (after_space : bool) (t : gostring) : bool :=
  match t with
  | [] => true
  | b :: rest =>
      if isReSpace b
      then negb after_space && Ascii.eqb b " " && clean true rest
      else clean false rest
  end.

(** A text that does not begin with a byte of the cutset. *)
Definition starts_clean (t : gostring) : bool :=
  match t with
  | [] => true
  | b :: _ => negb (inCutset b)
  end.

(** The vertical tab, [\v]. *)
Definition VT : ascii := ascii_of_N 11.

(** ["a\v\vb"]: two letters with a run of two vertical tabs between. *)
Definition a_vt_vt_b : gostring := str "a" ++ [VT; VT] ++ str "b".

End TextTest.

(** ** The mark index (specification, section 4.5)

    [TextMarkArray.RangeOffset] is called by the harness but declared in a
    file of the package that is not among the sources. *)

Module MarkIndex.

Import TextTest.

Inductive RangeError : Type :=
| InvalidRange
| NoMatch.

(** A view over an ordered sequence of marks, borrowed from the page text it
    indexes: [text_length] is the length of that logical text. *)
Record TextMarkArray : Type :=
  mkArray { marks : list TextMark; text_length : Z }.

(** [Len] and [Elements], as the harness calls them. *)
Definition Len (ma : TextMarkArray) : Z := len (marks ma).
Definition Elements (ma : TextMarkArray) : list TextMark := marks ma.

(** The coverage of a mark is [[Offset, Offset + len(Text))]; it meets the
    half-open range [[start, end_)] when the two have an offset in common. *)
Definition intersects (start end_ : Z) (m : TextMark) : bool :=
  Z.max start (Offset m) <? Z.min end_ (Offset m + len (Text m)).

(** Modelled from the spec: [TextMarkArray.RangeOffset], which is not among
    the sources. "Given a half-open logical-text offset range [[start, end)],
    return, in original order, every TextMark whose coverage intersects that
    range. Fails with an InvalidRange condition when [start < 0],
    [end > length(text)], or [start >= end]. Returns a NoMatch condition only
    if that range covers exclusively inserted separators (no backing
    marks)." *)
Definition RangeOffset (ma : TextMarkArray) (start end_ : Z)
  : RangeError + TextMarkArray :=
  if (start <? 0) || (text_length ma <? end_) || (end_ <=? start) then inl InvalidRange
  else
    match filter (intersects start end_) (marks ma) with
    | [] => inl NoMatch
    | view => inr (mkArray view (text_length ma))
    end.

(** A page text: the logical text and its marks. *)
Record PageText : Type :=
  mkPageText { text : gostring; page_marks : list TextMark }.

(** [PageText.Marks()] *)
Definition Marks (pt : PageText) : TextMarkArray :=
  mkArray (page_marks pt) (len (text pt)).

(** The windows of [testTermMarks]. The text is cut into its runes
    ([runes := []rune(text)]; for well-formed UTF-8 the text is the
    concatenation of the encodings of its runes, each at least one byte),
    and the window of [n] runes at rune offset [ofs] is the byte range
<<
    ofs0 := len(string(runes[:ofs]))
    ofs1 := len(string(runes[:ofs+n]))
>> *)
Definition window (runes : list gostring) (ofs n : nat) : Z * Z :=
  (len (List.concat (firstn ofs runes)), len (List.concat (firstn (ofs + n) runes))).

(** A mark without geometry of interest, for examples. *)
Definition mark (o : Z) (t : string) : TextMark := l o (str t) 0 0 0 0.

(** The logical text ["a b"] of two glyphs; the space between them is
    inserted by the assembler and no mark backs it. *)
Definition page_a_b : PageText :=
  mkPageText (str "a b") [mark 0 "a"; mark 2 "b"].

End MarkIndex.

(** ** extractor/text_test.go: more of the conformance harness *)

Module Harness.

Import TextTest MarkIndex.

(** A byte that [reduceSpaces] may drop or rewrite: one of the class [\s]
    or of the cutset of [strings.Trim]. *)
Definition blank (b : ascii) : bool := isReSpace b || inCutset b.

Definition nonblank (b : ascii) : bool := negb (blank b).

(** A Go [map[int]TextMark], by what a lookup [m[k]] returns: [None] when
    the key is missing ([ok] is false). *)
Definition offsetMap : Type := Z -> option TextMark.

(** [make(map[int]TextMark, n)] *)
Definition map_empty : offsetMap := fun _ => None.

(** [m[k] = v] *)
Definition map_set (m : offsetMap) (k : Z) (v : TextMark) : offsetMap :=
  fun k' => if k' =? k then Some v else m k'.

(** [marksMap] returns [textMarks] as a map of TextMarks keyed by
    [TextMark.Offset]:
<<
    for _, tm := range textMarks.Elements() { offsetMark[tm.Offset] = tm }
>> *)
Definition collect (elements : list TextMark) : offsetMap :=
  fold_left (fun m tm => map_set m (Offset tm) tm) elements map_empty.

Definition marksMap (textMarks : TextMarkArray) : offsetMap :=
  collect (Elements textMarks).

(** [checkContains] checks that [offsetMark] contains [expectedMark]: the
    offset is a key, and the mark under it has the expected text and a
    bounding box within [tol] of the expected one. [false] stands for a
    call of [t.Fatalf]. *)
Definition checkContains (offsetMark : offsetMap) (expectedMark : TextMark) : bool :=
  match offsetMark (Offset expectedMark) with
  | None => false
  | Some tm =>
      string_eqb (Text tm) (Text expectedMark) &&
      rectEquals (BBox expectedMark) (BBox tm)
  end.

(** [sort.Ints]: the slice in increasing order. Of a slice of integers
    there is one sorted arrangement, so the algorithm does not show; this
    is a straight insertion sort. *)
Fixpoint insert (x : Z) (xs : list Z) : list Z :=
  match xs with
  | [] => [x]
  | y :: rest => if x <=? y then x :: xs else y :: insert x rest
  end.

Definition sort_Ints (xs : list Z) : list Z := fold_right insert [] xs.

(** A Go map with [int] keys, as the sequence of its entries in the order
    one [range] loop visits them: the keys are distinct and the order is
    arbitrary. *)
Definition gomap (V : Type) : Type := list (Z * V).

Definition keys {V : Type} (m : gomap V) : list Z := map fst m.

(** [sortedKeys] returns the keys of [m] as a sorted slice
    ([textLocTest.pageNums] is the same code over [e.contents]):
<<
    for k := range m { keys = append(keys, k) }
    sort.Ints(keys)
>> *)
Definition sortedKeys {V : Type} (m : gomap V) : list Z := sort_Ints (keys m).

(** [m[k]] for a map of slices: the zero value [nil] when the key is
    missing. *)
Fixpoint map_get {V : Type} (m : gomap (list V)) (k : Z) : list V :=
  match m with
  | [] => []
  | (k', v) :: rest => if k' =? k then v else map_get rest k
  end.

(** [m[k] = v] *)
Fixpoint map_put {V : Type} (m : gomap V) (k : Z) (v : V) : gomap V :=
  match m with
  | [] => [(k, v)]
  | (k', v') :: rest =>
      if k' =? k then (k, v) :: rest else (k', v') :: map_put rest k v
  end.

(** [match] is a match of search term [Term] on a page, with its bounding
    box. *)
Record match_ : Type := mkMatch { Term : gostring; MatchBBox : PdfRectangle }.

(** [markupList]: the fields the methods below read and write (the testing
    context and the PDF reader are handles that they only pass on). *)
Record markupList : Type :=
  mkMarkupList { inPath : gostring; pageMatches : gomap (list match_); pageNum : Z }.

(** [createMarkupList]: no matches, and the zero page number. *)
Definition createMarkupList (inPath : gostring) : markupList :=
  mkMarkupList inPath [] 0.

(** [setPageNum] sets the page number that [addMatch] adds matches to. *)
Definition setPageNum (l : markupList) (pageNum : Z) : markupList :=
  mkMarkupList (Harness.inPath l) (pageMatches l) pageNum.

(** [addMatch]:
<<
    m := match{Term: term, BBox: bbox}
    l.pageMatches[l.pageNum] = append(l.pageMatches[l.pageNum], m)
>> *)
Definition addMatch (l : markupList) (term : gostring) (bbox : PdfRectangle)
  : markupList :=
  let m := mkMatch term bbox in
  mkMarkupList (Harness.inPath l)
    (map_put (pageMatches l) (Harness.pageNum l)
             (map_get (pageMatches l) (Harness.pageNum l) ++ [m]))
    (Harness.pageNum l).

(** [markupList.pageNums] returns the page numbers that have matches:
<<
    for pageNum, matches := range l.pageMatches {
        if len(matches) == 0 { continue }
        nums = append(nums, pageNum)
    }
    sort.Ints(nums)
>> *)
Definition pageNums (l : markupList) : list Z :=
  sort_Ints (keys (filter (fun e => negb (len (snd e) =? 0)) (pageMatches l))).

(** The markup lists a test can build: created, then any sequence of
    [setPageNum] and [addMatch]. *)
Inductive reachable : markupList -> Prop :=
| reach_create (inPath : gostring) : reachable (createMarkupList inPath)
| reach_setPageNum (l : markupList) (pageNum : Z) :
    reachable l -> reachable (setPageNum l pageNum)
| reach_addMatch (l : markupList) (term : gostring) (bbox : PdfRectangle) :
    reachable l -> reachable (addMatch l term bbox).

(** The UTF-8 encoding of U+FFFD, the rune that Go decodes from a byte
    that begins no well-formed sequence. *)
Definition replacement : gostring :=
  [ascii_of_N 239; ascii_of_N 191; ascii_of_N 189].

(** The number of bytes of the well-formed UTF-8 sequence at the head of
    [s]; 0 when there is none. *)
Definition rune_size (s : gostring) : nat :=
  match s with
  | [] => 0
  | b0 :: rest =>
      if between 0 127 b0 then 1
      else if between 194 223 b0 then
        match rest with
        | b1 :: _ => if is_cont b1 then 2 else 0
        | _ => 0
        end
      else if between 224 239 b0 then
        match rest with
        | b1 :: b2 :: _ =>
            if (if between 224 224 b0 then between 160 191 b1
                else if between 237 237 b0 then between 128 159 b1
                else is_cont b1) && is_cont b2
            then 3 else 0
        | _ => 0
        end
      else if between 240 244 b0 then
        match rest with
        | b1 :: b2 :: b3 :: _ =>
            if (if between 240 240 b0 then between 144 191 b1
                else if between 244 244 b0 then between 128 143 b1
                else is_cont b1) && is_cont b2 && is_cont b3
            then 4 else 0
        | _ => 0
        end
      else 0
  end.

(** [[]rune(text)], each rune by the bytes [string(rune)] encodes it to: a
    well-formed sequence is one rune; any other byte is one rune U+FFFD.
    [fuel] bounds the number of runes by the number of bytes. *)
Fixpoint runes_fuel (fuel : nat) (s : gostring) : list gostring :=
  match fuel with
  | O => []
  | S fuel' =>
      match s with
      | [] => []
      | _ :: tail =>
          match rune_size s with
          | O => replacement :: runes_fuel fuel' tail
          | k => firstn k s :: runes_fuel fuel' (skipn k s)
          end
      end
  end.

Definition runes_of (s : gostring) : list gostring :=
  runes_fuel (List.length s) s.

(** [utf8.RuneCountInString(text)] *)
Definition RuneCountInString (text : gostring) : Z := len (runes_of text).

(** Go's [int] arithmetic, which wraps around at 64 bits. *)
Definition wrap64 (z : Z) : Z := (z + 2 ^ 63) mod 2 ^ 64 - 2 ^ 63.

(** The byte ranges [(ofs0, ofs1)] that [testTermMarks] passes to
    [RangeOffset] for a width [n], in the order of the loop, when no
    [t.Fatalf] stops it:
<<
    if len(text) < 2 { return }
    runes := []rune(text)
    if n > len(runes)/2 { n = len(runes) / 2 }
    for ofs := 0; ofs < len(runes)-2*n; ofs++ {
        term := string(runes[ofs : ofs+n])
        ofs0 := len(string(runes[:ofs]))
        ofs1 := len(string(runes[:ofs+n]))
        ...
        show := fmt.Sprintf("<%s|%s|%s>", text[ofs0d:ofs0], text[ofs0:ofs1], text[ofs1:ofs1d])
        ...
        spanArray, err := textMarks.RangeOffset(ofs0, ofs1)
>>
    [None] is a run-time panic. A negative [n] is not capped, and
    [runes[ofs:ofs+n]] panics in the first turn of the loop, if the loop
    is entered at all: its bound is computed in wrapping arithmetic. For
    [n >= 0] nothing wraps ([2*n <= len(runes)] after the cap), and the
    slices of [text] panic when [ofs1] is beyond the text, which happens
    only when the text is not well-formed UTF-8 (an ill-formed byte is one
    rune, but [string] encodes it with three bytes). *)
Definition termWindows (text : gostring) (n : Z) : option (list (Z * Z)) :=
  if len text <? 2 then Some []
  else
    let runes := runes_of text in
    if n <? 0 then
      if 0 <? wrap64 (len runes - wrap64 (2 * n)) then None else Some []
    else
      let n' := if len runes / 2 <? n then len runes / 2 else n in
      let ws := map (fun ofs => window runes ofs (Z.to_nat n'))
                    (seq 0 (Z.to_nat (len runes - 2 * n'))) in
      if forallb (fun w => snd w <=? len text) ws then Some ws else None.

(** [strings.Index(s, substr)]: the byte index of the first instance of
    [substr] in [s], or -1 when there is none. [Index_from] searches [s],
    which begins at index [i] of the whole string. *)
Fixpoint Index_from (s substr : gostring) (i : Z) : Z :=
  if HasPrefix s substr then i
  else
    match s with
    | [] => -1
    | _ :: rest => Index_from rest substr (i + 1)
    end.

Definition Index (s substr : gostring) : Z := Index_from s substr 0.

Inductive getBBoxError (E : Type) : Type :=
| NoTextMatch           (* "text has no match for term=%q" *)
| RangeFailed (e : E)   (* the error of RangeOffset *)
| NoBoundingBox.        (* "spanMarks.BBox has no bounding box." *)

Arguments NoTextMatch {E}.
Arguments RangeFailed {E} e.
Arguments NoBoundingBox {E}.

Section GetBBox.

(** [TextMarkArray.RangeOffset] and [TextMarkArray.BBox] are declared in
    files of the package that are not among the sources; [BBox] returns a
    rectangle and [ok]. *)
Variable E : Type.
Variable RangeOffset_ : TextMarkArray -> Z -> Z -> E + TextMarkArray.
Variable BBox_ : TextMarkArray -> option PdfRectangle.

(** [getBBox] returns the minimum bounding box around the TextMarks in
    [textMarks] that correspond to the first instance of [term] in [text]. *)
Definition getBBox (text : gostring) (textMarks : TextMarkArray) (term : gostring)
  : getBBoxError E + PdfRectangle :=
  let start := Index text term in
  if start <? 0 then inl NoTextMatch
  else
    let end_ := start + len term in
    match RangeOffset_ textMarks start end_ with
    | inl e => inl (RangeFailed e)
    | inr spanMarks =>
        match BBox_ spanMarks with
        | None => inl NoBoundingBox
        | Some bbox => inr bbox
        end
    end.

End GetBBox.

(** The four coordinates of a rectangle, in the order [rectEquals] compares
    them. *)
Definition coordinates (b : PdfRectangle) : list float :=
  [Llx b; Lly b; Urx b; Ury b].

End Harness.

(** * Properties *)

(** ** Strings *)

Lemma len_nonneg {A : Type} (s : list A) : 0 <= len s.
Proof. unfold len. lia. Qed.

Lemma len_app {A : Type} (a b : list A) : len (a ++ b) = len a + len b.
Proof. unfold len. rewrite length_app. lia. Qed.

Lemma string_eqb_eq (a b : gostring) : string_eqb a b = true <-> a = b.
Proof.
  revert b. induction a as [|x a IH]; intros [|y b]; simpl; split; intro H;
    try reflexivity; try discriminate.
  - apply andb_true_iff in H. destruct H as [Hxy Hab].
    apply Ascii.eqb_eq in Hxy. apply IH in Hab. now subst.
  - injection H as -> ->. rewrite Ascii.eqb_refl. simpl. now apply IH.
Qed.

Lemma string_eqb_refl (a : gostring) : string_eqb a a = true.
Proof. now apply string_eqb_eq. Qed.

Lemma HasPrefix_app (p t : gostring) : HasPrefix (p ++ t) p = true.
Proof.
  unfold HasPrefix. apply andb_true_iff. split.
  - apply Z.leb_le. rewrite len_app. pose proof (len_nonneg t). lia.
  - rewrite firstn_app, Nat.sub_diag, firstn_all. simpl. rewrite app_nil_r.
    apply string_eqb_refl.
Qed.

Lemma HasPrefix_inv (s p : gostring) :
  HasPrefix s p = true -> exists t, s = p ++ t.
Proof.
  unfold HasPrefix. intro H. apply andb_true_iff in H. destruct H as [_ H].
  apply string_eqb_eq in H. exists (skipn (List.length p) s).
  rewrite <- H at 1. symmetry. apply firstn_skipn.
Qed.

Lemma HasSuffix_app (t p : gostring) : HasSuffix (t ++ p) p = true.
Proof.
  unfold HasSuffix. apply andb_true_iff. split.
  - apply Z.leb_le. rewrite len_app. pose proof (len_nonneg t). lia.
  - rewrite length_app. replace (List.length t + List.length p - List.length p)%nat
      with (List.length t) by lia.
    rewrite skipn_app, skipn_all, Nat.sub_diag. simpl. apply string_eqb_refl.
Qed.

Lemma HasSuffix_inv (s p : gostring) :
  HasSuffix s p = true -> exists t, s = t ++ p.
Proof.
  unfold HasSuffix. intro H. apply andb_true_iff in H. destruct H as [_ H].
  apply string_eqb_eq in H.
  exists (firstn (List.length s - List.length p) s).
  rewrite <- H at 2. symmetry. apply firstn_skipn.
Qed.

(** The loop of [startWith] succeeds exactly when some non-empty suffix of
    [sub] is a prefix of [str]. *)
Lemma startWith_iff (str sub : gostring) :
  TextTest.startWith str sub = true <->
  exists n, (n < List.length sub)%nat /\ HasPrefix str (skipn n sub) = true.
Proof.
  unfold TextTest.startWith. rewrite existsb_exists. split.
  - intros [n [Hin H]]. apply in_seq in Hin. exists n. split; [lia | exact H].
  - intros [n [Hn H]]. exists n. split; [apply in_seq; lia | exact H].
Qed.

(** The loop of [endsWith] succeeds exactly when some non-empty prefix of
    [sub] is a suffix of [str]. *)
Lemma endsWith_iff (str sub : gostring) :
  TextTest.endsWith str sub = true <->
  exists n, (1 <= n <= List.length sub)%nat /\ HasSuffix str (firstn n sub) = true.
Proof.
  unfold TextTest.endsWith. rewrite existsb_exists. split.
  - intros [n [Hin H]]. apply in_rev, in_seq in Hin. exists n. split; [lia | exact H].
  - intros [n [Hn H]]. exists n. split; [| exact H].
    rewrite <- in_rev. apply in_seq. lia.
Qed.

(** ** extractor/utils.go *)

Lemma slice_to_spec (s : gostring) (n : Z) :
  0 <= n <= len s -> slice_to s n = Some (firstn (Z.to_nat n) s).
Proof.
  intro H. unfold slice_to.
  destruct (Z.leb_spec 0 n); [| lia]. destruct (Z.leb_spec n (len s)); [| lia].
  reflexivity.
Qed.

(** C8. For every string [s] and every non-negative [n], [truncate s n]
    does not panic and returns the prefix of [s] of [min n (len s)] bytes:
    all of [s] when [len s < n], and [s[:n]] otherwise. The count is in
    bytes: truncating the two-byte UTF-8 encoding of one character at 1
    leaves a single byte that is not well-formed UTF-8. *)
Theorem truncate_is_byte_prefix (s : gostring) (n : Z) :
  0 <= n ->
  Utils.truncate s n = Some (firstn (Z.to_nat (Z.min n (len s))) s)
  /\ (len s < n -> Utils.truncate s n = Some s)
  /\ (n <= len s ->
      Utils.truncate s n = slice_to s n /\
      slice_to s n = Some (firstn (Z.to_nat n) s))
  /\ (utf8_valid e_acute = true /\
      exists t, Utils.truncate e_acute 1 = Some t /\ len t = 1 /\ utf8_valid t = false).
Proof.
  intro Hn. unfold Utils.truncate.
  destruct (Z.ltb_spec (len s) n) as [Hlt | Hge].
  - repeat split.
    + rewrite Z.min_r by lia. unfold len. rewrite Nat2Z.id, firstn_all. reflexivity.
    + lia.
    + lia.
    + exists [ascii_of_N 195]. repeat split.
  - pose proof (slice_to_spec s n (conj Hn Hge)) as Hs. repeat split.
    + rewrite Z.min_l by lia. exact Hs.
    + intro. lia.
    + exact Hs.
    + exists [ascii_of_N 195]. repeat split.
Qed.

Lemma truncate_is_byte_prefix_witness :
  Utils.truncate (str "Hello World!") 5 = Some (str "Hello").
Proof.
  destruct (truncate_is_byte_prefix (str "Hello World!") 5) as [H _]; [lia |].
  rewrite H. reflexivity.
Defined.

(** [truncate] with a negative count slices out of range. *)
Lemma truncate_negative_panics (s : gostring) (n : Z) :
  n < 0 -> Utils.truncate s n = None.
Proof.
  intro H. unfold Utils.truncate, slice_to. pose proof (len_nonneg s).
  destruct (Z.ltb_spec (len s) n); [lia |].
  destruct (Z.leb_spec 0 n); [lia |]. reflexivity.
Qed.

Section ToFloatXYFacts.

Variable PdfObject : Type.
Variable core_error : Type.
Variable GetNumberAsFloat : PdfObject -> core_error + float.

Lemma GetNumbersAsFloat_ok (objs : list PdfObject) (fs : list float) :
  Utils.GetNumbersAsFloat PdfObject core_error GetNumberAsFloat objs = inr fs ->
  Forall2 (fun o v => GetNumberAsFloat o = inr v) objs fs.
Proof.
  revert fs. induction objs as [|o rest IH]; simpl; intros fs H.
  - injection H as <-. constructor.
  - destruct (GetNumberAsFloat o) as [e|v] eqn:Ho; [discriminate |].
    destruct (Utils.GetNumbersAsFloat _ _ _ rest) as [e|vs]; [discriminate |].
    injection H as <-. constructor; [exact Ho | now apply IH].
Qed.

Lemma GetNumbersAsFloat_err (objs : list PdfObject) (e : core_error) :
  Utils.GetNumbersAsFloat PdfObject core_error GetNumberAsFloat objs = inl e ->
  exists o, In o objs /\ GetNumberAsFloat o = inl e.
Proof.
  induction objs as [|o rest IH]; simpl; intro H; [discriminate |].
  destruct (GetNumberAsFloat o) as [e'|v] eqn:Ho.
  - injection H as ->. exists o. auto.
  - destruct (Utils.GetNumbersAsFloat _ _ _ rest) as [e'|vs]; [| discriminate].
    injection H as ->. destruct (IH eq_refl) as [o' [Hin Ho']]. exists o'. auto.
Qed.

End ToFloatXYFacts.

(** C9. [toFloatXY objs] never panics. It returns an error exactly when
    [len objs <> 2] or one of the operands cannot be converted to a float;
    with an error, [x] and [y] are both 0; without, [objs] has two operands
    and [x], [y] are their values in the original order. *)
Theorem toFloatXY_error_iff
  (PdfObject core_error : Type) (GetNumberAsFloat : PdfObject -> core_error + float)
  (objs : list PdfObject) :
  exists res,
    Utils.toFloatXY PdfObject core_error GetNumberAsFloat objs = Some res
    /\ (Utils.xy_err res <> None <->
        len objs <> 2 \/ exists o e, In o objs /\ GetNumberAsFloat o = inl e)
    /\ (Utils.xy_err res <> None ->
        Utils.xy_x res = 0%float /\ Utils.xy_y res = 0%float)
    /\ (Utils.xy_err res = None ->
        exists a b, objs = [a; b] /\
                    GetNumberAsFloat a = inr (Utils.xy_x res) /\
                    GetNumberAsFloat b = inr (Utils.xy_y res)).
Proof.
  unfold Utils.toFloatXY.
  destruct (Z.eqb_spec (len objs) 2) as [Hlen | Hlen]; simpl.
  - destruct objs as [|a [|b [|c rest]]]; unfold len in Hlen; simpl in Hlen; try lia.
    destruct (Utils.GetNumbersAsFloat _ _ _ [a; b]) as [e | fs] eqn:Hnum.
    + eexists. split; [reflexivity |]. simpl. split; [split | split].
      * intros _. right.
        destruct (GetNumbersAsFloat_err _ _ _ _ _ Hnum) as [o [Hin Ho]].
        exists o, e. auto.
      * intros _. discriminate.
      * intros _. split; reflexivity.
      * discriminate.
    + pose proof (GetNumbersAsFloat_ok _ _ _ _ _ Hnum) as Hok.
      inversion Hok as [| ? x ? fs1 Ha Hok1]; subst.
      inversion Hok1 as [| ? y ? fs2 Hb Hok2]; subst.
      inversion Hok2; subst. simpl.
      eexists. split; [reflexivity |]. simpl. split; [split | split].
      * intro H. now contradiction H.
      * intros [H | [o [e [Hin Ho]]]]; [unfold len in H; simpl in H; lia |].
        destruct Hin as [<- | [<- | []]]; congruence.
      * intro H. now contradiction H.
      * intros _. exists a, b. auto.
  - eexists. split; [reflexivity |]. simpl. split; [split | split].
    + intros _. now left.
    + intros _. discriminate.
    + intros _. split; reflexivity.
    + discriminate.
Qed.

Section ColorFacts.

Variable unrepresentable : float -> Z.

Lemma uint8_range (f : float) : 0 <= Utils.uint8 unrepresentable f <= 255.
Proof.
  unfold Utils.uint8.
  pose proof (Z.mod_pos_bound (unrepresentable f) 256 ltac:(lia)) as Hm.
  destruct (Utils.float_trunc f) as [z|]; [| lia].
  destruct (Z.leb_spec 0 z); destruct (Z.leb_spec z 255); simpl; lia.
Qed.

(** A float whose integer part fits a byte converts to that integer part. *)
Lemma uint8_exact (f : float) (z : Z) :
  Utils.float_trunc f = Some z -> 0 <= z <= 255 -> Utils.uint8 unrepresentable f = z.
Proof.
  intros Hf Hz. unfold Utils.uint8. rewrite Hf.
  destruct (Z.leb_spec 0 z); destruct (Z.leb_spec z 255); simpl; lia.
Qed.

(** Full, half and no intensity: 255, 127 (127.5 loses its fraction) and 0. *)
Lemma uint8_scaled_examples :
  Utils.uint8 unrepresentable (1 * 255)%float = 255 /\
  Utils.uint8 unrepresentable (0.5 * 255)%float = 127 /\
  Utils.uint8 unrepresentable (0 * 255)%float = 0.
Proof.
  repeat split; apply uint8_exact; try lia; vm_compute; reflexivity.
Qed.

End ColorFacts.


(** ** extractor/text_test.go *)

(** C7. Two rectangles are equal for the harness exactly when each of the
    four coordinate pairs is within [tol]: [|a - b| <= tol], computed in
    binary64. [tol] is the binary64 value nearest to 0.5001 (within half a
    unit in the last place of it), just over 0.5; the comparison itself
    rounds nothing: a difference of exactly [tol] passes and the next
    float above [tol] fails. Differences of 0.5 pass, of 0.75 fail. *)
Theorem rectEquals_coordinatewise (b1 b2 : TextTest.PdfRectangle) :
  (TextTest.rectEquals b1 b2 = true <->
     PrimFloat.leb (abs (TextTest.Llx b1 - TextTest.Llx b2)) TextTest.tol = true /\
     PrimFloat.leb (abs (TextTest.Lly b1 - TextTest.Lly b2)) TextTest.tol = true /\
     PrimFloat.leb (abs (TextTest.Urx b1 - TextTest.Urx b2)) TextTest.tol = true /\
     PrimFloat.leb (abs (TextTest.Ury b1 - TextTest.Ury b2)) TextTest.tol = true)
  /\ (exists m e, Prim2SF TextTest.tol = S754_finite false m e /\
                  2 * Z.abs (Zpos m * 10000 - 5001 * 2 ^ (- e)) <= 10000)
  /\ PrimFloat.ltb 0.5 TextTest.tol = true
  /\ TextTest.within_tol TextTest.tol 0 = true
  /\ TextTest.within_tol (next_up TextTest.tol) 0 = false
  /\ TextTest.rectEquals (TextTest.r 10 20 30 40) (TextTest.r 10.5 19.5 30.5 40.5) = true
  /\ TextTest.rectEquals (TextTest.r 10 20 30 40) (TextTest.r 10.75 20 30 40) = false.
Proof.
  split; [| split; [| repeat split]].
  - unfold TextTest.rectEquals, TextTest.within_tol.
    rewrite !andb_true_iff. tauto.
  - eexists. eexists. split; [vm_compute; reflexivity |]. vm_compute. discriminate.
Qed.

(** ** The mark index *)

Lemma slice_some (s t : gostring) (i j : Z) :
  slice s i j = Some t ->
  0 <= i <= j /\ j <= len s /\ t = firstn (Z.to_nat (j - i)) (skipn (Z.to_nat i) s).
Proof.
  unfold slice. intro H.
  destruct (Z.leb_spec 0 i); destruct (Z.leb_spec i j);
    destruct (Z.leb_spec j (len s)); simpl in H; try discriminate.
  injection H as <-. repeat split; lia.
Qed.

Lemma slice_defined (s : gostring) (i j : Z) :
  0 <= i <= j -> j <= len s ->
  slice s i j = Some (firstn (Z.to_nat (j - i)) (skipn (Z.to_nat i) s)).
Proof.
  intros H1 H2. unfold slice.
  destruct (Z.leb_spec 0 i); destruct (Z.leb_spec i j);
    destruct (Z.leb_spec j (len s)); simpl; try lia. reflexivity.
Qed.

(** A mark that lies in the text and begins at or before offset [s] of it,
    ending inside the window [[s, e)]: the window begins with the rest of
    the mark. *)
Lemma overlap_prefix (txt T : gostring) (off s e : nat) :
  firstn (List.length T) (skipn off txt) = T ->
  (off <= s)%nat -> (off + List.length T <= e)%nat ->
  exists rest, firstn (e - s) (skipn s txt) = skipn (s - off) T ++ rest.
Proof.
  intros HT Hs He.
  pose proof (firstn_skipn (List.length T) (skipn off txt)) as Hsplit.
  rewrite HT in Hsplit.
  assert (Hskip : skipn s txt = skipn (s - off) (skipn off txt)).
  { rewrite skipn_skipn. f_equal. lia. }
  rewrite Hskip, <- Hsplit, skipn_app, firstn_app.
  eexists. f_equal.
  apply firstn_all2. rewrite length_skipn. lia.
Qed.

(** A mark that lies in the text, begins inside the window [[s, e)] and ends
    at or after its end: the window ends with the beginning of the mark. *)
Lemma overlap_suffix (txt T : gostring) (off s e : nat) :
  firstn (List.length T) (skipn off txt) = T ->
  (off + List.length T <= List.length txt)%nat ->
  (s <= off)%nat -> (off <= e)%nat -> (e <= off + List.length T)%nat ->
  exists init, firstn (e - s) (skipn s txt) = init ++ firstn (e - off) T.
Proof.
  intros HT Hin Hs Hoff He.
  pose proof (firstn_skipn (List.length T) (skipn off txt)) as Hsplit.
  rewrite HT in Hsplit.
  pose proof (firstn_skipn (off - s) (skipn s txt)) as Hcut.
  rewrite skipn_skipn in Hcut. replace (off - s + s)%nat with off in Hcut by lia.
  rewrite <- Hsplit in Hcut. rewrite <- Hcut.
  set (P := firstn (off - s) (skipn s txt)).
  assert (HP : List.length P = (off - s)%nat).
  { subst P. rewrite length_firstn, length_skipn. lia. }
  exists P. rewrite firstn_app, HP.
  rewrite (firstn_all2 P) by lia. f_equal.
  replace (e - s - (off - s))%nat with (e - off)%nat by lia.
  rewrite firstn_app. replace (e - off - List.length T)%nat with 0%nat by lia.
  rewrite firstn_O, app_nil_r. reflexivity.
Qed.

Section RangeQuery.

Import TextTest MarkIndex.

Lemma RangeOffset_invalid_iff (ma : TextMarkArray) (start end_ : Z) :
  RangeOffset ma start end_ = inl InvalidRange <->
  start < 0 \/ text_length ma < end_ \/ end_ <= start.
Proof.
  unfold RangeOffset.
  destruct (Z.ltb_spec start 0); destruct (Z.ltb_spec (text_length ma) end_);
    destruct (Z.leb_spec end_ start); simpl; try (split; [intros _; lia | reflexivity]).
  destruct (filter _ _); split; try discriminate; lia.
Qed.

End RangeQuery.

Section RangeQueryClaims.

Import TextTest MarkIndex.

(** C1. For every page text shorter than [1e10], the range query over its
    marks fails with [InvalidRange] on [(-1, 0)], on [(0, 1e10)] and on
    [(1, 0)]: it neither succeeds nor returns an empty view. *)
Theorem RangeOffset_rejects_bad_ranges (pt : PageText) :
  len (text pt) < 10 ^ 10 ->
  RangeOffset (Marks pt) (-1) 0 = inl InvalidRange /\
  RangeOffset (Marks pt) 0 (10 ^ 10) = inl InvalidRange /\
  RangeOffset (Marks pt) 1 0 = inl InvalidRange.
Proof.
  intro Hlen. change (10 ^ 10) with 10000000000 in *.
  repeat split; apply RangeOffset_invalid_iff; unfold Marks; simpl; lia.
Qed.

Lemma RangeOffset_rejects_bad_ranges_witness :
  RangeOffset (Marks page_a_b) (-1) 0 = inl InvalidRange /\
  RangeOffset (Marks page_a_b) 0 (10 ^ 10) = inl InvalidRange /\
  RangeOffset (Marks page_a_b) 1 0 = inl InvalidRange.
Proof.
  apply (RangeOffset_rejects_bad_ranges page_a_b). vm_compute. reflexivity.
Defined.

End RangeQueryClaims.

Section Windows.

Import TextTest MarkIndex.

Lemma len_concat_pos (rs : list gostring) :
  Forall (fun r => r <> []) rs -> rs <> [] -> 0 < len (List.concat rs).
Proof.
  intros Hall Hne. destruct rs as [|r rs]; [congruence |].
  inversion Hall as [| ? ? Hr _]; subst. simpl. rewrite len_app.
  pose proof (len_nonneg (List.concat rs)).
  destruct r; [congruence |]. unfold len at 1. cbn [List.length]. lia.
Qed.

Lemma firstn_plus {A : Type} (a b : nat) (xs : list A) :
  firstn (a + b) xs = firstn a xs ++ firstn b (skipn a xs).
Proof.
  revert xs. induction a as [|a IH]; intro xs; [reflexivity |].
  destruct xs as [|x xs]; simpl; [now rewrite firstn_nil | now rewrite IH].
Qed.

Lemma Forall_window {A : Type} (P : A -> Prop) (a b : nat) (xs : list A) :
  Forall P xs -> Forall P (firstn b (skipn a xs)).
Proof.
  intro H. rewrite <- (firstn_skipn a xs) in H. apply Forall_app in H.
  destruct H as [_ H]. rewrite <- (firstn_skipn b (skipn a xs)) in H.
  apply Forall_app in H. tauto.
Qed.

(** Every window of [n >= 1] runes that the text holds is a valid byte
    range of the text: [0 <= ofs0 < ofs1 <= len(text)]. *)
Lemma window_inside (runes : list gostring) (ofs n : nat) :
  Forall (fun r => r <> []) runes ->
  (1 <= n)%nat -> (ofs + n <= List.length runes)%nat ->
  0 <= fst (window runes ofs n)
  /\ fst (window runes ofs n) < snd (window runes ofs n)
  /\ snd (window runes ofs n) <= len (List.concat runes).
Proof.
  intros Hall Hn Hin. unfold window. cbn [fst snd].
  assert (Hcut : firstn (ofs + n) runes =
                 firstn ofs runes ++ firstn n (skipn ofs runes))
    by apply firstn_plus.
  rewrite Hcut, List.concat_app, len_app.
  split; [apply len_nonneg |]. split.
  - assert (0 < len (List.concat (firstn n (skipn ofs runes)))); [| lia].
    apply len_concat_pos.
    + now apply Forall_window.
    + intro Hnil. apply (f_equal (@List.length _)) in Hnil.
      rewrite length_firstn, length_skipn in Hnil. simpl in Hnil. lia.
  - assert (Hfull : len (List.concat runes) =
                    len (List.concat (firstn ofs runes)) +
                    len (List.concat (firstn n (skipn ofs runes))) +
                    len (List.concat (skipn (ofs + n) runes))).
    { rewrite <- (firstn_skipn (ofs + n) runes) at 1.
      rewrite Hcut, !List.concat_app, !len_app. lia. }
    pose proof (len_nonneg (List.concat (skipn (ofs + n) runes))). lia.
Qed.

End Windows.

(** ** reduceSpaces *)

Section ReduceSpaces.

Import TextTest.

Lemma replaceSpaces_clean (s : gostring) (p : bool) :
  clean p (replaceSpaces p s) = true.
Proof.
  revert p. induction s as [|b rest IH]; intro p; simpl; [reflexivity |].
  destruct (isReSpace b) eqn:Hb.
  - destruct p; simpl; [apply IH |]. apply IH.
  - simpl. rewrite Hb. apply IH.
Qed.

Lemma clean_fixed (t : gostring) (p : bool) :
  clean p t = true -> replaceSpaces p t = t.
Proof.
  revert p. induction t as [|b rest IH]; intro p; simpl; [reflexivity |].
  destruct (isReSpace b) eqn:Hb; intro H.
  - apply andb_true_iff in H. destruct H as [H Hrest].
    apply andb_true_iff in H. destruct H as [Hp Hsp].
    apply Ascii.eqb_eq in Hsp. subst b.
    destruct p; [discriminate |]. f_equal. now apply IH.
  - f_equal. now apply IH.
Qed.

Lemma clean_weaken (t : gostring) (p : bool) :
  clean p t = true -> clean false t = true.
Proof.
  destruct t as [|b rest]; simpl; [reflexivity |].
  destruct (isReSpace b); [| trivial].
  intro H. apply andb_true_iff in H. destruct H as [H Hrest].
  apply andb_true_iff in H. destruct H as [_ Hsp]. now rewrite Hsp, Hrest.
Qed.

Lemma clean_app_l (a b : gostring) (p : bool) :
  clean p (a ++ b) = true -> clean p a = true.
Proof.
  revert p. induction a as [|x a IH]; intro p; simpl; [reflexivity |].
  destruct (isReSpace x); [| apply IH].
  intro H. apply andb_true_iff in H. destruct H as [H Hrest].
  rewrite H. simpl. now apply IH.
Qed.

Lemma clean_app_r (a b : gostring) (p : bool) :
  clean p (a ++ b) = true -> clean false b = true.
Proof.
  revert p. induction a as [|x a IH]; intro p; simpl; [apply clean_weaken |].
  destruct (isReSpace x); [| apply IH].
  intro H. apply andb_true_iff in H. destruct H as [_ Hrest]. now apply IH in Hrest.
Qed.

Lemma TrimLeft_suffix (s : gostring) : exists a, s = a ++ TrimLeft s.
Proof.
  induction s as [|b rest [a IH]]; simpl; [now exists [] |].
  destruct (inCutset b); [| now exists []].
  exists (b :: a). simpl. now f_equal.
Qed.

Lemma TrimRight_prefix (s : gostring) : exists a, s = TrimRight s ++ a.
Proof.
  unfold TrimRight. destruct (TrimLeft_suffix (rev s)) as [a Ha].
  exists (rev a). rewrite <- rev_app_distr, <- Ha. symmetry. apply rev_involutive.
Qed.

Lemma TrimLeft_starts_clean (s : gostring) : starts_clean (TrimLeft s) = true.
Proof.
  induction s as [|b rest IH]; simpl; [reflexivity |].
  destruct (inCutset b) eqn:Hb; [exact IH |]. simpl. now rewrite Hb.
Qed.

Lemma TrimLeft_fixed (s : gostring) : starts_clean s = true -> TrimLeft s = s.
Proof.
  destruct s as [|b rest]; simpl; [reflexivity |].
  destruct (inCutset b); [discriminate | reflexivity].
Qed.

Lemma starts_clean_prefix (a b : gostring) :
  starts_clean (a ++ b) = true -> starts_clean a = true.
Proof. destruct a; simpl; auto. Qed.

Lemma TrimRight_starts_clean (s : gostring) :
  starts_clean s = true -> starts_clean (TrimRight s) = true.
Proof.
  intro H. destruct (TrimRight_prefix s) as [a Ha]. rewrite Ha in H.
  now apply starts_clean_prefix in H.
Qed.

Lemma Trim_starts_clean (s : gostring) : starts_clean (Trim s) = true.
Proof. unfold Trim. apply TrimRight_starts_clean, TrimLeft_starts_clean. Qed.

Lemma Trim_ends_clean (s : gostring) : starts_clean (rev (Trim s)) = true.
Proof.
  unfold Trim, TrimRight. rewrite rev_involutive. apply TrimLeft_starts_clean.
Qed.

Lemma Trim_fixed (s : gostring) :
  starts_clean s = true -> starts_clean (rev s) = true -> Trim s = s.
Proof.
  intros Hl Hr. unfold Trim, TrimRight.
  rewrite (TrimLeft_fixed s Hl), (TrimLeft_fixed (rev s) Hr). apply rev_involutive.
Qed.

Lemma Trim_clean (s : gostring) (p : bool) :
  clean p s = true -> clean false (Trim s) = true.
Proof.
  intro H. unfold Trim.
  destruct (TrimLeft_suffix s) as [a Ha]. rewrite Ha in H.
  apply clean_app_r in H.
  destruct (TrimRight_prefix (TrimLeft s)) as [b Hb]. rewrite Hb in H.
  now apply clean_app_l in H.
Qed.

(** [reduceSpaces] is idempotent. *)
Lemma reduceSpaces_idempotent (s : gostring) :
  reduceSpaces (reduceSpaces s) = reduceSpaces s.
Proof.
  unfold reduceSpaces at 1. unfold reSpace_ReplaceAllString.
  assert (Hc : clean false (reduceSpaces s) = true).
  { unfold reduceSpaces, reSpace_ReplaceAllString.
    apply (Trim_clean _ false), replaceSpaces_clean. }
  rewrite (clean_fixed _ _ Hc). unfold reduceSpaces.
  apply Trim_fixed; [apply Trim_starts_clean | apply Trim_ends_clean].
Qed.

(** In the output of [reduceSpaces] a byte of the class [\s], wherever it
    stands, is a space, and it stands between two bytes that are not of
    the class: it is neither the first nor the last byte, and no byte of
    the class precedes or follows it. *)
Lemma reduceSpaces_no_double_reSpace (s a b : gostring) (x : ascii) :
  reduceSpaces s = a ++ x :: b -> isReSpace x = true ->
  x = " "%char
  /\ (exists w a', a = a' ++ [w] /\ isReSpace w = false)
  /\ (exists y b', b = y :: b' /\ isReSpace y = false).
Proof.
  intros Hs Hx.
  assert (Hc : clean false (reduceSpaces s) = true).
  { unfold reduceSpaces, reSpace_ReplaceAllString.
    apply (Trim_clean _ false), replaceSpaces_clean. }
  pose proof (Trim_starts_clean (reSpace_ReplaceAllString s)) as Hfirst.
  pose proof (Trim_ends_clean (reSpace_ReplaceAllString s)) as Hlast.
  fold (reduceSpaces s) in Hfirst, Hlast. rewrite Hs in Hc, Hfirst, Hlast.
  assert (Hxb : clean false (x :: b) = true) by (now apply clean_app_r in Hc).
  simpl in Hxb. rewrite Hx in Hxb. simpl in Hxb.
  apply andb_true_iff in Hxb. destruct Hxb as [Hsp Hb].
  apply Ascii.eqb_eq in Hsp. subst x. split; [reflexivity |]. split.
  - destruct a as [|w0 a0] using rev_ind; [discriminate Hfirst |].
    clear IHa0. exists w0, a0. split; [reflexivity |].
    rewrite <- app_assoc in Hc. apply clean_app_r in Hc. simpl in Hc.
    destruct (isReSpace w0); [| reflexivity].
    rewrite andb_false_r in Hc. simpl in Hc. discriminate.
  - destruct b as [|y b'].
    + rewrite rev_app_distr in Hlast. discriminate Hlast.
    + exists y, b'. split; [reflexivity |]. simpl in Hb.
      destruct (isReSpace y); [discriminate | reflexivity].
Qed.

(** The output of [reduceSpaces] neither begins nor ends with a space, a
    tab, a line feed, a carriage return or a vertical tab. *)
Lemma reduceSpaces_trimmed (s : gostring) :
  (forall b rest, reduceSpaces s = b :: rest -> inCutset b = false) /\
  (forall init b, reduceSpaces s = init ++ [b] -> inCutset b = false).
Proof.
  split.
  - intros b rest H. pose proof (Trim_starts_clean (reSpace_ReplaceAllString s)) as Hc.
    fold (reduceSpaces s) in Hc. rewrite H in Hc. simpl in Hc.
    now destruct (inCutset b).
  - intros init b H. pose proof (Trim_ends_clean (reSpace_ReplaceAllString s)) as Hc.
    fold (reduceSpaces s) in Hc. rewrite H, rev_app_distr in Hc. simpl in Hc.
    now destruct (inCutset b).
Qed.

(** C10. [reduceSpaces] keeps a run of vertical tabs: on ["a\v\vb"] it
    returns its input, two consecutive vertical tabs included, although the
    vertical tab is one of the bytes it strips at both ends. The regular
    expression class [\s] does not hold the vertical tab; the cutset of
    [strings.Trim] does. *)
Theorem reduceSpaces_keeps_vertical_tab_run :
  reduceSpaces a_vt_vt_b = a_vt_vt_b
  /\ a_vt_vt_b = str "a" ++ VT :: VT :: str "b"
  /\ isReSpace VT = false
  /\ inCutset VT = true
  /\ reduceSpaces (VT :: VT :: str "a b" ++ [VT]) = str "a b".
Proof. repeat split. Qed.

End ReduceSpaces.

(** * Further properties of the code *)

(** ** reduceSpaces: what the comparison of texts ignores and what it keeps *)

Section ReduceSpacesMore.

Import TextTest Harness.

Lemma replaceSpaces_same_kind (a b : gostring) (x y : ascii) (p : bool) :
  isReSpace x = true -> isReSpace y = true ->
  replaceSpaces p (a ++ x :: b) = replaceSpaces p (a ++ y :: b).
Proof.
  intros Hx Hy. revert p. induction a as [|z a IH]; intro p; simpl.
  - now rewrite Hx, Hy.
  - destruct (isReSpace z); [destruct p |]; now rewrite IH.
Qed.

Lemma replaceSpaces_run (a b : gostring) (x y : ascii) (p : bool) :
  isReSpace x = true -> isReSpace y = true ->
  replaceSpaces p (a ++ x :: y :: b) = replaceSpaces p (a ++ x :: b).
Proof.
  intros Hx Hy. revert p. induction a as [|z a IH]; intro p; simpl.
  - now rewrite Hx, Hy.
  - destruct (isReSpace z); [destruct p |]; now rewrite IH.
Qed.

(** [reduceSpaces] does not tell one kind of space of the class [\s] from
    another, nor a run of them from a single one. *)
Theorem reduceSpaces_ignores_space_kind_and_count
  (a b : gostring) (x y : ascii) :
  isReSpace x = true -> isReSpace y = true ->
  reduceSpaces (a ++ x :: b) = reduceSpaces (a ++ y :: b) /\
  reduceSpaces (a ++ x :: y :: b) = reduceSpaces (a ++ x :: b).
Proof.
  intros Hx Hy. unfold reduceSpaces, reSpace_ReplaceAllString. split.
  - now rewrite (replaceSpaces_same_kind a b x y).
  - now rewrite (replaceSpaces_run a b x y).
Qed.

Lemma reduceSpaces_ignores_space_kind_and_count_witness :
  reduceSpaces (str "Hello" ++ ascii_of_N 9 :: str "World") =
    reduceSpaces (str "Hello" ++ ascii_of_N 10 :: str "World") /\
  reduceSpaces (str "Hello" ++ ascii_of_N 9 :: ascii_of_N 10 :: str "World") =
    reduceSpaces (str "Hello" ++ ascii_of_N 9 :: str "World").
Proof.
  apply (reduceSpaces_ignores_space_kind_and_count
           (str "Hello") (str "World") (ascii_of_N 9) (ascii_of_N 10));
    reflexivity.
Defined.

Lemma replaceSpaces_false_true (s : gostring) :
  replaceSpaces false s = replaceSpaces true s \/
  replaceSpaces false s = " "%char :: replaceSpaces true s.
Proof.
  destruct s as [|b rest]; simpl; [now left |].
  destruct (isReSpace b); [now right | now left].
Qed.

Lemma TrimLeft_app_cut (t : gostring) (c : ascii) :
  inCutset c = true ->
  TrimLeft (t ++ [c]) = [] /\ TrimLeft t = [] \/
  TrimLeft (t ++ [c]) = TrimLeft t ++ [c].
Proof.
  intro Hc. induction t as [|b t IH]; simpl.
  - rewrite Hc. now left.
  - destruct (inCutset b); [exact IH | now right].
Qed.

Lemma TrimRight_app_cut (u : gostring) (c : ascii) :
  inCutset c = true -> TrimRight (u ++ [c]) = TrimRight u.
Proof.
  intro Hc. unfold TrimRight. rewrite rev_app_distr. simpl. now rewrite Hc.
Qed.

Lemma Trim_app_cut (t : gostring) (c : ascii) :
  inCutset c = true -> Trim (t ++ [c]) = Trim t.
Proof.
  intro Hc. unfold Trim.
  destruct (TrimLeft_app_cut t c Hc) as [[H1 H2] | H].
  - now rewrite H1, H2.
  - rewrite H. now apply TrimRight_app_cut.
Qed.

Lemma Trim_cons_cut (t : gostring) (c : ascii) :
  inCutset c = true -> Trim (c :: t) = Trim t.
Proof. intro Hc. unfold Trim. simpl. now rewrite Hc. Qed.

Lemma replaceSpaces_snoc (s : gostring) (x : ascii) (p : bool) :
  isReSpace x = true ->
  replaceSpaces p (s ++ [x]) = replaceSpaces p s \/
  replaceSpaces p (s ++ [x]) = replaceSpaces p s ++ [" "%char].
Proof.
  intro Hx. revert p. induction s as [|b s IH]; intro p; simpl.
  - rewrite Hx. destruct p; [now left | now right].
  - destruct (isReSpace b); [destruct p |].
    + apply IH.
    + destruct (IH true) as [H | H]; rewrite H; [now left | now right].
    + destruct (IH false) as [H | H]; rewrite H; [now left | now right].
Qed.

(** [reduceSpaces] ignores a space of the class [\s] at either end of the
    text. *)
Theorem reduceSpaces_ignores_outer_space (s : gostring) (x : ascii) :
  isReSpace x = true ->
  reduceSpaces (x :: s) = reduceSpaces s /\
  reduceSpaces (s ++ [x]) = reduceSpaces s.
Proof.
  intro Hx. unfold reduceSpaces, reSpace_ReplaceAllString. split.
  - simpl. rewrite Hx. rewrite Trim_cons_cut by reflexivity.
    destruct (replaceSpaces_false_true s) as [H | H]; rewrite H;
      [reflexivity |]. now rewrite Trim_cons_cut.
  - destruct (replaceSpaces_snoc s x false Hx) as [H | H]; rewrite H;
      [reflexivity |]. now apply Trim_app_cut.
Qed.

Lemma reduceSpaces_ignores_outer_space_witness :
  reduceSpaces (ascii_of_N 12 :: str "Doink") = reduceSpaces (str "Doink") /\
  reduceSpaces (str "Doink" ++ [ascii_of_N 12]) = reduceSpaces (str "Doink").
Proof.
  apply (reduceSpaces_ignores_outer_space (str "Doink") (ascii_of_N 12)).
  reflexivity.
Defined.

Lemma filter_nonblank_replaceSpaces (s : gostring) (p : bool) :
  filter nonblank (replaceSpaces p s) = filter nonblank s.
Proof.
  revert p. induction s as [|b s IH]; intro p; simpl; [reflexivity |].
  destruct (isReSpace b) eqn:Hb.
  - assert (Hn : nonblank b = false) by (unfold nonblank, blank; now rewrite Hb).
    rewrite Hn. destruct p; simpl; apply IH.
  - simpl. now rewrite IH.
Qed.

Lemma filter_nonblank_TrimLeft (s : gostring) :
  filter nonblank (TrimLeft s) = filter nonblank s.
Proof.
  induction s as [|b s IH]; simpl; [reflexivity |].
  destruct (inCutset b) eqn:Hb; [| reflexivity].
  assert (Hn : nonblank b = false)
    by (unfold nonblank, blank; rewrite Hb; now rewrite orb_true_r).
  now rewrite Hn.
Qed.

Lemma filter_nonblank_Trim (s : gostring) :
  filter nonblank (Trim s) = filter nonblank s.
Proof.
  unfold Trim, TrimRight.
  rewrite filter_rev, filter_nonblank_TrimLeft, filter_rev, rev_involutive.
  apply filter_nonblank_TrimLeft.
Qed.

Lemma length_replaceSpaces (s : gostring) (p : bool) :
  (List.length (replaceSpaces p s) <= List.length s)%nat.
Proof.
  revert p. induction s as [|b s IH]; intro p; simpl; [lia |].
  pose proof (IH true). pose proof (IH false).
  destruct (isReSpace b); [destruct p |]; simpl; lia.
Qed.

Lemma length_TrimLeft (s : gostring) :
  (List.length (TrimLeft s) <= List.length s)%nat.
Proof.
  induction s as [|b s IH]; simpl; [lia |].
  destruct (inCutset b); simpl; lia.
Qed.

(** [reduceSpaces] only drops or rewrites blank bytes: the bytes that are
    neither of the class [\s] nor of the cutset are kept, all of them and in
    their order, and the result is never longer than the text. *)
Theorem reduceSpaces_keeps_nonblank (s : gostring) :
  filter nonblank (reduceSpaces s) = filter nonblank s /\
  len (reduceSpaces s) <= len s.
Proof.
  unfold reduceSpaces, reSpace_ReplaceAllString. split.
  - rewrite filter_nonblank_Trim. apply filter_nonblank_replaceSpaces.
  - unfold Trim, TrimRight, len. rewrite length_rev.
    pose proof (length_TrimLeft (rev (TrimLeft (replaceSpaces false s)))) as H1.
    rewrite length_rev in H1.
    pose proof (length_TrimLeft (replaceSpaces false s)) as H2.
    pose proof (length_replaceSpaces s false) as H3. lia.
Qed.

Lemma reduceSpaces_no_double_reSpace_witness :
  ascii_of_N 32 = " "%char
  /\ (exists w a', str "Hello" = a' ++ [w] /\ isReSpace w = false)
  /\ (exists y b', str "World" = y :: b' /\ isReSpace y = false).
Proof.
  apply (reduceSpaces_no_double_reSpace
           (str "Hello" ++ [ascii_of_N 9; ascii_of_N 10] ++ str "World")
           (str "Hello") (str "World") (ascii_of_N 32));
    reflexivity.
Defined.

End ReduceSpacesMore.

(** ** truncate: composition and bounds *)

Lemma truncate_negative_panics_witness :
  Utils.truncate (str "Hello") (-1) = None.
Proof. apply (truncate_negative_panics (str "Hello") (-1)). lia. Defined.

Lemma truncate_value (s : gostring) (n : Z) :
  0 <= n -> Utils.truncate s n = Some (firstn (Z.to_nat n) s).
Proof.
  intro Hn. unfold Utils.truncate.
  destruct (Z.ltb_spec (len s) n) as [Hlt | Hge].
  - rewrite firstn_all2; [reflexivity |]. unfold len in Hlt. lia.
  - apply slice_to_spec. lia.
Qed.

(** Truncating twice is truncating once at the smaller count; the result of
    [truncate s n] has at most [n] bytes and is a prefix of [s]. *)
Theorem truncate_twice (s : gostring) (n m : Z) :
  0 <= n -> 0 <= m ->
  exists t,
    Utils.truncate s n = Some t
    /\ Utils.truncate t m = Utils.truncate s (Z.min n m)
    /\ len t <= n
    /\ HasPrefix s t = true.
Proof.
  intros Hn Hm. exists (firstn (Z.to_nat n) s).
  split; [now apply truncate_value |]. split; [| split].
  - rewrite !truncate_value by lia. f_equal.
    rewrite firstn_firstn. f_equal. lia.
  - unfold len. rewrite length_firstn. lia.
  - rewrite <- (firstn_skipn (Z.to_nat n) s) at 1. apply HasPrefix_app.
Qed.

Lemma truncate_twice_witness :
  exists t,
    Utils.truncate (str "Hello World!") 8 = Some t
    /\ Utils.truncate t 5 = Utils.truncate (str "Hello World!") (Z.min 8 5)
    /\ len t <= 8
    /\ HasPrefix (str "Hello World!") t = true.
Proof. apply (truncate_twice (str "Hello World!") 8 5); lia. Defined.

(** ** startWith and endsWith: what the overlap rule accepts *)

Section OverlapRule.

Import TextTest.

Lemma HasPrefix_iff (s p : gostring) :
  HasPrefix s p = true <-> exists t, s = p ++ t.
Proof.
  split; [apply HasPrefix_inv |]. intros [t ->]. apply HasPrefix_app.
Qed.

Lemma HasSuffix_iff (s p : gostring) :
  HasSuffix s p = true <-> exists t, s = t ++ p.
Proof.
  split; [apply HasSuffix_inv |]. intros [t ->]. apply HasSuffix_app.
Qed.

Lemma startWith_app_iff (str sub : gostring) :
  startWith str sub = true <->
  exists a b c, sub = a ++ b /\ b <> [] /\ str = b ++ c.
Proof.
  rewrite startWith_iff. split.
  - intros [n [Hn Hp]]. apply HasPrefix_iff in Hp. destruct Hp as [c Hc].
    exists (firstn n sub), (skipn n sub), c. split; [| split].
    + symmetry. apply firstn_skipn.
    + intro Hnil. apply (f_equal (@List.length _)) in Hnil.
      rewrite length_skipn in Hnil. simpl in Hnil. lia.
    + exact Hc.
  - intros [a [b [c [Hu [Hb Hs]]]]]. exists (List.length a). split.
    + subst sub. rewrite length_app. destruct b; [congruence | simpl; lia].
    + subst sub. rewrite skipn_app, Nat.sub_diag, skipn_all. simpl.
      apply HasPrefix_iff. now exists c.
Qed.

Lemma endsWith_app_iff (str sub : gostring) :
  endsWith str sub = true <->
  exists a b c, sub = a ++ b /\ a <> [] /\ str = c ++ a.
Proof.
  rewrite endsWith_iff. split.
  - intros [n [Hn Hp]]. apply HasSuffix_iff in Hp. destruct Hp as [c Hc].
    exists (firstn n sub), (skipn n sub), c. split; [| split].
    + symmetry. apply firstn_skipn.
    + intro Hnil. apply (f_equal (@List.length _)) in Hnil.
      rewrite length_firstn in Hnil. simpl in Hnil. lia.
    + exact Hc.
  - intros [a [b [c [Hu [Ha Hs]]]]]. exists (List.length a). split.
    + subst sub. rewrite length_app. destruct a; [congruence | simpl; lia].
    + subst sub. rewrite firstn_app, Nat.sub_diag, firstn_all. simpl.
      rewrite app_nil_r. apply HasSuffix_iff. now exists c.
Qed.

Lemma rev_not_nil {A : Type} (xs : list A) : xs <> [] -> rev xs <> [].
Proof.
  intros Hne Hnil. apply (f_equal (@rev _)) in Hnil.
  rewrite rev_involutive in Hnil. now apply Hne.
Qed.

(** [startWith str sub] holds exactly when [sub] ends with a non-empty
    string that [str] begins with. In particular it never holds for an
    empty [str] or an empty [sub], and it holds as soon as the last byte of
    [sub] is the first byte of [str]. *)
Theorem startWith_overlap (str sub : gostring) :
  (startWith str sub = true <->
     exists a b c, sub = a ++ b /\ b <> [] /\ str = b ++ c)
  /\ startWith [] sub = false
  /\ startWith str [] = false
  /\ (forall x a c, sub = a ++ [x] -> str = x :: c -> startWith str sub = true).
Proof.
  split; [apply startWith_app_iff |]. split; [| split].
  - apply not_true_iff_false. intro H. apply startWith_app_iff in H.
    destruct H as [a [b [c [_ [Hb Hs]]]]]. destruct b; [congruence | discriminate].
  - reflexivity.
  - intros x a c -> ->. apply startWith_app_iff. exists a, [x], c.
    split; [reflexivity |]. split; [discriminate | reflexivity].
Qed.

(** [endsWith str sub] holds exactly when [sub] begins with a non-empty
    string that [str] ends with; it is [startWith] read from right to left,
    and like it never holds for an empty [str] or an empty [sub]. *)
Theorem endsWith_mirrors_startWith (str sub : gostring) :
  (endsWith str sub = true <->
     exists a b c, sub = a ++ b /\ a <> [] /\ str = c ++ a)
  /\ endsWith str sub = startWith (rev str) (rev sub)
  /\ endsWith [] sub = false
  /\ endsWith str [] = false.
Proof.
  split; [apply endsWith_app_iff |]. split; [| split].
  - destruct (startWith (rev str) (rev sub)) eqn:Hst.
    + apply startWith_app_iff in Hst. destruct Hst as [a [b [c [Hu [Hb Hstr]]]]].
      apply endsWith_app_iff. exists (rev b), (rev a), (rev c).
      apply (f_equal (@rev _)) in Hu, Hstr.
      rewrite rev_involutive, rev_app_distr in Hu, Hstr.
      split; [exact Hu |]. split; [now apply rev_not_nil | exact Hstr].
    + apply not_true_iff_false. intro He. apply endsWith_app_iff in He.
      destruct He as [a [b [c [Hu [Ha Hstr]]]]].
      assert (Hs : startWith (rev str) (rev sub) = true); [| congruence].
      apply startWith_app_iff. exists (rev b), (rev a), (rev c). subst.
      rewrite !rev_app_distr.
      split; [reflexivity |]. split; [now apply rev_not_nil | reflexivity].
  - apply not_true_iff_false. intro H. apply endsWith_app_iff in H.
    destruct H as [a [b [c [_ [Ha Hs]]]]].
    destruct a; [congruence |]. destruct c; discriminate.
  - reflexivity.
Qed.

(** [startWith] accepts every string that overlaps the start of the term in
    a common text: if [sub] lies in [txt] from [off], the term is
    [txt[start:end]], and [sub] begins at or before [start] and ends after
    [start] and at or before [end], then [startWith term sub]. *)
Theorem startWith_accepts_overlap_in_text
  (txt term sub : gostring) (off start end_ : Z) :
  slice txt off (off + len sub) = Some sub ->
  slice txt start end_ = Some term ->
  off <= start -> start < off + len sub -> off + len sub <= end_ ->
  startWith term sub = true.
Proof.
  intros Hm Hterm Hoff Hcov Hend.
  apply slice_some in Hm. destruct Hm as [Hm1 [Hm2 Hm3]].
  apply slice_some in Hterm. destruct Hterm as [Ht1 [Ht2 ->]].
  replace (off + len sub - off) with (len sub) in Hm3 by lia.
  unfold len in *. rewrite Nat2Z.id in Hm3. symmetry in Hm3.
  destruct (overlap_prefix txt sub (Z.to_nat off) (Z.to_nat start)
              (Z.to_nat end_) Hm3) as [rest Hrest]; try lia.
  apply startWith_iff. exists (Z.to_nat start - Z.to_nat off)%nat.
  split; [lia |].
  replace (Z.to_nat (end_ - start)) with (Z.to_nat end_ - Z.to_nat start)%nat by lia.
  rewrite Hrest. apply HasPrefix_app.
Qed.

Lemma startWith_accepts_overlap_in_text_witness :
  startWith (str "ice") (str "fi") = true.
Proof.
  apply (startWith_accepts_overlap_in_text (str "office") (str "ice") (str "fi") 2 3 6);
    try reflexivity; vm_compute; discriminate.
Defined.

(** [endsWith] accepts every string that overlaps the end of the term in a
    common text: if [sub] lies in [txt] from [off], the term is
    [txt[start:end]], and [sub] begins at or after [start] and before
    [end] and ends at or after [end], then [endsWith term sub]. *)
Theorem endsWith_accepts_overlap_in_text
  (txt term sub : gostring) (off start end_ : Z) :
  slice txt off (off + len sub) = Some sub ->
  slice txt start end_ = Some term ->
  start <= off -> off < end_ -> end_ <= off + len sub ->
  endsWith term sub = true.
Proof.
  intros Hm Hterm Hoff Hcov Hend.
  apply slice_some in Hm. destruct Hm as [Hm1 [Hm2 Hm3]].
  apply slice_some in Hterm. destruct Hterm as [Ht1 [Ht2 ->]].
  replace (off + len sub - off) with (len sub) in Hm3 by lia.
  unfold len in *. rewrite Nat2Z.id in Hm3. symmetry in Hm3.
  destruct (overlap_suffix txt sub (Z.to_nat off) (Z.to_nat start)
              (Z.to_nat end_) Hm3) as [init Hinit]; try lia.
  apply endsWith_iff. exists (Z.to_nat end_ - Z.to_nat off)%nat.
  split; [lia |].
  replace (Z.to_nat (end_ - start)) with (Z.to_nat end_ - Z.to_nat start)%nat by lia.
  rewrite Hinit. apply HasSuffix_app.
Qed.

Lemma endsWith_accepts_overlap_in_text_witness :
  endsWith (str "off") (str "fi") = true.
Proof.
  apply (endsWith_accepts_overlap_in_text (str "office") (str "off") (str "fi") 2 0 3);
    try reflexivity; vm_compute; discriminate.
Defined.

End OverlapRule.

(** ** rectEquals as a relation on binary64 rectangles *)

Section RectEqualsRelation.

Import TextTest Harness.

Lemma SFabs_binary_round_aux (s : bool) (m e : Z) (l : location) :
  SFabs (binary_round_aux prec emax s m e l) =
  SFabs (binary_round_aux prec emax false m e l).
Proof.
  unfold binary_round_aux.
  destruct (shr_fexp prec emax m e l) as [mrs' e'].
  destruct (shr_fexp prec emax _ e' loc_Exact) as [mrs'' e''].
  destruct (shr_m mrs''); [reflexivity | | reflexivity].
  destruct (e'' <=? emax - prec); reflexivity.
Qed.

Lemma SFabs_binary_normalize_opp (m e : Z) (sz sz' : bool) :
  SFabs (binary_normalize prec emax (- m) e sz) =
  SFabs (binary_normalize prec emax m e sz').
Proof.
  destruct m as [| p | p]; simpl; [reflexivity | |];
    unfold binary_round;
    destruct (shl_align p e _) as [mz ez];
    [| symmetry]; apply SFabs_binary_round_aux.
Qed.

Lemma SFabs_SFsub_comm (x y : spec_float) :
  SFabs (SFsub prec emax x y) = SFabs (SFsub prec emax y x).
Proof.
  destruct x as [sx | sx | | sx mx ex]; destruct y as [sy | sy | | sy my ey];
    try reflexivity;
    try (destruct sx; destruct sy; reflexivity).
  unfold SFsub. rewrite (Z.min_comm ey ex).
  set (a := cond_Zopp sx _). set (b := cond_Zopp sy _).
  replace (b - a) with (- (a - b)) by lia.
  symmetry. apply SFabs_binary_normalize_opp.
Qed.

Lemma abs_sub_comm (x y : float) : abs (x - y) = abs (y - x).
Proof.
  apply Prim2SF_inj. rewrite !abs_spec, !sub_spec. apply SFabs_SFsub_comm.
Qed.

Lemma within_tol_sym (a b : float) : within_tol a b = within_tol b a.
Proof. unfold within_tol. now rewrite abs_sub_comm. Qed.

(** [rectEquals] is symmetric: the expected and the actual rectangle can be
    given in either order. *)
Theorem rectEquals_symmetric (b1 b2 : PdfRectangle) :
  rectEquals b1 b2 = rectEquals b2 b1.
Proof.
  unfold rectEquals.
  now rewrite (within_tol_sym (Llx b1)), (within_tol_sym (Lly b1)),
    (within_tol_sym (Urx b1)), (within_tol_sym (Ury b1)).
Qed.

Lemma tol_value : Prim2SF tol = S754_finite false 4504500347295970 (-53).
Proof. vm_compute. reflexivity. Qed.

Lemma is_nan_spec (x : float) : is_nan x = true <-> Prim2SF x = S754_nan.
Proof.
  unfold is_nan. rewrite FloatAxioms.eqb_spec. unfold SFeqb.
  destruct (Prim2SF x) as [s | s | | s m e]; simpl.
  - split; discriminate.
  - destruct s; split; discriminate.
  - split; reflexivity.
  - rewrite Z.compare_refl, Pos.compare_cont_refl.
    destruct s; split; discriminate.
Qed.

Lemma is_infinity_spec (x : float) :
  is_infinity x = true <-> exists s, Prim2SF x = S754_infinity s.
Proof.
  unfold is_infinity. rewrite FloatAxioms.eqb_spec, abs_spec.
  change (Prim2SF infinity) with (S754_infinity false). unfold SFeqb.
  destruct (Prim2SF x) as [s | s | | s m e]; simpl; split;
    try discriminate; try (intros [s' H]; discriminate); try reflexivity.
  intros _. now exists s.
Qed.

Lemma is_finite_spec (x : float) :
  is_finite x = true <->
  (exists s, Prim2SF x = S754_zero s) \/ (exists s m e, Prim2SF x = S754_finite s m e).
Proof.
  unfold is_finite. rewrite negb_true_iff, orb_false_iff.
  rewrite <- !not_true_iff_false, is_nan_spec, is_infinity_spec.
  destruct (Prim2SF x) as [s | s | | s m e]; split.
  - intros _. left. now exists s.
  - intros _. split; [discriminate | intros [s' H]; discriminate].
  - intros [_ H]. contradiction H. now exists s.
  - intros [[s' H] | [s' [m [e H]]]]; discriminate.
  - intros [H _]. now contradiction H.
  - intros [[s' H] | [s' [m [e H]]]]; discriminate.
  - intros _. right. now exists s, m, e.
  - intros _. split; [discriminate | intros [s' H]; discriminate].
Qed.

(** A coordinate is within [tol] of itself exactly when it is finite: the
    difference of an infinity or of a NaN with itself is a NaN. *)
Lemma within_tol_refl (x : float) : within_tol x x = is_finite x.
Proof.
  unfold within_tol. rewrite FloatAxioms.leb_spec, abs_spec, sub_spec, tol_value.
  destruct (is_finite x) eqn:Hf.
  - apply is_finite_spec in Hf.
    destruct Hf as [[s H] | [s [m [e H]]]]; rewrite H.
    + destruct s; reflexivity.
    + unfold SF64sub, SFsub. rewrite Z.min_id. unfold shl_align.
      rewrite Z.sub_diag. cbn [fst]. reflexivity.
  - apply not_true_iff_false in Hf. rewrite is_finite_spec in Hf.
    destruct (Prim2SF x) as [s | s | | s m e].
    + contradiction Hf. left. now exists s.
    + destruct s; reflexivity.
    + reflexivity.
    + contradiction Hf. right. now exists s, m, e.
Qed.

(** [rectEquals] is reflexive on finite rectangles only: a rectangle equals
    itself exactly when its four coordinates are finite. *)
Theorem rectEquals_reflexive_iff_finite (b : PdfRectangle) :
  rectEquals b b = forallb is_finite (coordinates b).
Proof.
  unfold rectEquals, coordinates. simpl. rewrite !within_tol_refl.
  now rewrite andb_true_r, !andb_assoc.
Qed.

Lemma within_tol_nan (x y : float) :
  is_nan x = true \/ is_nan y = true -> within_tol x y = false.
Proof.
  intro H. unfold within_tol.
  rewrite FloatAxioms.leb_spec, abs_spec, sub_spec.
  destruct H as [H | H]; apply is_nan_spec in H; rewrite H.
  - reflexivity.
  - destruct (Prim2SF x); reflexivity.
Qed.

(** A rectangle with a NaN coordinate equals no rectangle. *)
Theorem rectEquals_nan (b1 b2 : PdfRectangle) :
  existsb is_nan (coordinates b1) = true \/
  existsb is_nan (coordinates b2) = true ->
  rectEquals b1 b2 = false.
Proof.
  unfold rectEquals, coordinates. simpl. rewrite !orb_false_r, !orb_true_iff.
  intro H. rewrite !andb_false_iff.
  destruct H as [[H | [H | [H | H]]] | [H | [H | [H | H]]]];
    [ left; left; left | left; left; right | left; right | right
    | left; left; left | left; left; right | left; right | right ];
    apply within_tol_nan; auto.
Qed.

Lemma rectEquals_nan_witness :
  rectEquals (r nan 0 1 1) (r nan 0 1 1) = false.
Proof. apply rectEquals_nan. left. reflexivity. Defined.

End RectEqualsRelation.

(** ** marksMap and checkContains *)

Section MarksMap.

Import TextTest MarkIndex Harness.

Lemma build_snoc (ms : list TextMark) (x : TextMark) (o : Z) :
  collect (ms ++ [x]) o =
  if o =? Offset x then Some x else collect ms o.
Proof. unfold collect. rewrite fold_left_app. reflexivity. Qed.

Lemma snoc_cases {A : Type} (l' pre post : list A) (x tm : A) :
  l' ++ [x] = pre ++ tm :: post ->
  (post = [] /\ l' = pre /\ x = tm) \/
  (exists post', post = post' ++ [x] /\ l' = pre ++ tm :: post').
Proof.
  intro H. destruct post as [|p post] using rev_ind.
  - left. apply app_inj_tail in H. tauto.
  - right. exists post. clear IHpost.
    replace (pre ++ tm :: post ++ [p]) with ((pre ++ tm :: post) ++ [p]) in H
      by (rewrite <- app_assoc; reflexivity).
    apply app_inj_tail in H. destruct H as [-> ->]. auto.
Qed.

Lemma build_some_iff (ms : list TextMark) (o : Z) (tm : TextMark) :
  collect ms o = Some tm <->
  exists pre post, ms = pre ++ tm :: post /\ Offset tm = o /\
                   forall m, In m post -> Offset m <> o.
Proof.
  induction ms as [|x ms IH] using rev_ind.
  - simpl. split; [discriminate |]. intros [pre [post [H _]]].
    now destruct pre.
  - rewrite build_snoc. destruct (Z.eqb_spec o (Offset x)) as [Ho | Ho].
    + split.
      * intro H. injection H as <-. exists ms, [].
        split; [reflexivity |]. split; [now symmetry |]. intros m [].
      * intros [pre [post [H [Htm Hpost]]]].
        apply snoc_cases in H. destruct H as [[_ [_ ->]] | [post' [-> _]]];
          [reflexivity |].
        exfalso. apply (Hpost x); [apply in_app_iff; right; now left | auto].
    + rewrite IH. split.
      * intros [pre [post [-> [Htm Hpost]]]]. exists pre, (post ++ [x]).
        split; [now rewrite <- app_assoc |]. split; [exact Htm |].
        intros m Hm. apply in_app_iff in Hm. destruct Hm as [Hm | [<- | []]]; auto.
      * intros [pre [post [H [Htm Hpost]]]].
        apply snoc_cases in H. destruct H as [[_ [_ ->]] | [post' [-> ->]]];
          [congruence |].
        exists pre, post'. split; [reflexivity |]. split; [exact Htm |].
        intros m Hm. apply Hpost. apply in_app_iff. now left.
Qed.

Lemma build_none_iff (ms : list TextMark) (o : Z) :
  collect ms o = None <-> forall m, In m ms -> Offset m <> o.
Proof.
  induction ms as [|x ms IH] using rev_ind.
  - simpl. split; [intros _ m [] | reflexivity].
  - rewrite build_snoc. destruct (Z.eqb_spec o (Offset x)) as [Ho | Ho].
    + split; [discriminate |]. intro H. exfalso.
      apply (H x); [apply in_app_iff; right; now left | auto].
    + rewrite IH. split.
      * intros H m Hm. apply in_app_iff in Hm.
        destruct Hm as [Hm | [<- | []]]; auto.
      * intros H m Hm. apply H. apply in_app_iff. now left.
Qed.

(** [marksMap] has a mark under exactly the offsets that occur in the
    array, and when several marks share an offset it holds the last of
    them. *)
Theorem marksMap_holds_last_mark (textMarks : TextMarkArray) (o : Z) :
  (marksMap textMarks o = None <->
     forall m, In m (Elements textMarks) -> Offset m <> o)
  /\ (forall tm,
        marksMap textMarks o = Some tm <->
        exists pre post,
          Elements textMarks = pre ++ tm :: post /\ Offset tm = o /\
          forall m, In m post -> Offset m <> o).
Proof.
  unfold marksMap. split; [apply build_none_iff |].
  intro tm. apply build_some_iff.
Qed.

(** [checkContains] over [marksMap] compares the expected mark with the last
    mark of the array at the expected offset, and with no other: a mark
    that a later mark of the same offset and of another text follows is
    reported as not contained, although the array holds it. *)
Theorem checkContains_sees_last_mark_only
  (textMarks : TextMarkArray) (expectedMark : TextMark) :
  (checkContains (marksMap textMarks) expectedMark = true <->
     exists pre tm post,
       Elements textMarks = pre ++ tm :: post
       /\ Offset tm = Offset expectedMark
       /\ (forall m, In m post -> Offset m <> Offset expectedMark)
       /\ Text tm = Text expectedMark
       /\ rectEquals (BBox expectedMark) (BBox tm) = true)
  /\ (forall pre mid tm post,
        Elements textMarks = pre ++ expectedMark :: mid ++ tm :: post ->
        Offset tm = Offset expectedMark ->
        (forall m, In m post -> Offset m <> Offset expectedMark) ->
        Text tm <> Text expectedMark ->
        checkContains (marksMap textMarks) expectedMark = false).
Proof.
  unfold checkContains, marksMap. split.
  - destruct (collect (Elements textMarks) (Offset expectedMark))
      as [tm |] eqn:Hl.
    + rewrite andb_true_iff, string_eqb_eq. split.
      * intros [Ht Hr]. apply build_some_iff in Hl.
        destruct Hl as [pre [post [He [Ho Hp]]]]. exists pre, tm, post. auto.
      * intros [pre [tm' [post [He [Ho [Hp [Ht Hr]]]]]]].
        assert (Hs : collect (Elements textMarks) (Offset expectedMark)
                     = Some tm')
          by (apply build_some_iff; exists pre, post; auto).
        rewrite Hl in Hs. injection Hs as ->. auto.
    + split; [discriminate |].
      intros [pre [tm' [post [He [Ho [Hp _]]]]]].
      assert (Hs : collect (Elements textMarks) (Offset expectedMark)
                   = Some tm')
        by (apply build_some_iff; exists pre, post; auto).
      congruence.
  - intros pre mid tm post He Ho Hp Ht.
    assert (Hs : collect (Elements textMarks) (Offset expectedMark)
                 = Some tm).
    { apply build_some_iff. exists (pre ++ expectedMark :: mid), post.
      split; [rewrite He, <- app_assoc; reflexivity | auto]. }
    rewrite Hs. apply andb_false_iff. left.
    apply not_true_iff_false. intro H. apply string_eqb_eq in H. auto.
Qed.

End MarksMap.

(** ** sortedKeys and the page numbers of a markup list *)

Section SortedKeys.

Import TextTest Harness.

Lemma insert_perm (x : Z) (xs : list Z) : Permutation (insert x xs) (x :: xs).
Proof.
  induction xs as [|y xs IH]; simpl; [reflexivity |].
  destruct (x <=? y); [reflexivity |].
  rewrite IH. apply perm_swap.
Qed.

Lemma sort_Ints_perm (xs : list Z) : Permutation (sort_Ints xs) xs.
Proof.
  induction xs as [|x xs IH]; simpl; [reflexivity |].
  rewrite insert_perm. now constructor.
Qed.

Lemma insert_sorted (x : Z) (xs : list Z) :
  StronglySorted Z.le xs -> StronglySorted Z.le (insert x xs).
Proof.
  induction xs as [|y xs IH]; intro Hs; simpl.
  - constructor; constructor.
  - inversion Hs as [| ? ? Hs' Hall]; subst.
    destruct (Z.leb_spec x y) as [Hle | Hgt].
    + constructor; [exact Hs |]. constructor; [exact Hle |].
      eapply Forall_impl; [| exact Hall]. intros z Hz. simpl in Hz. lia.
    + constructor; [now apply IH |].
      rewrite insert_perm. constructor; [lia | exact Hall].
Qed.

Lemma sort_Ints_sorted (xs : list Z) : StronglySorted Z.le (sort_Ints xs).
Proof.
  induction xs as [|x xs IH]; simpl; [constructor | now apply insert_sorted].
Qed.

Lemma sorted_nodup_strict (xs : list Z) :
  StronglySorted Z.le xs -> NoDup xs -> StronglySorted Z.lt xs.
Proof.
  induction xs as [|x xs IH]; intros Hs Hn; [constructor |].
  inversion Hs as [| ? ? Hs' Hall]; subst.
  inversion Hn as [| ? ? Hnot Hn']; subst.
  constructor; [now apply IH |].
  apply Forall_forall. intros z Hz.
  assert (x <= z) by (revert z Hz; now apply Forall_forall).
  assert (x <> z) by (intros ->; now apply Hnot). lia.
Qed.

Lemma insert_comm (x y : Z) (xs : list Z) :
  insert x (insert y xs) = insert y (insert x xs).
Proof.
  induction xs as [|z xs IH]; simpl.
  - destruct (Z.leb_spec x y); destruct (Z.leb_spec y x); try reflexivity;
      try lia. f_equal; [lia | f_equal; lia].
  - destruct (Z.leb_spec y z); destruct (Z.leb_spec x z); simpl;
      destruct (Z.leb_spec x y); destruct (Z.leb_spec y x);
      destruct (Z.leb_spec x z); destruct (Z.leb_spec y z);
      try lia; try reflexivity; try (now rewrite IH).
    replace y with x by lia. reflexivity.
Qed.

Lemma sort_Ints_order_free (xs ys : list Z) :
  Permutation xs ys -> sort_Ints xs = sort_Ints ys.
Proof.
  induction 1 as [| x xs ys _ IH | x y xs | xs ys zs _ IH1 _ IH2]; simpl.
  - reflexivity.
  - now rewrite IH.
  - apply insert_comm.
  - now rewrite IH1.
Qed.

(** [sortedKeys] (and [textLocTest.pageNums], the same code) returns each
    key of the map once, in strictly increasing order, and the result does
    not depend on the order in which the map is iterated. *)
Theorem sortedKeys_sorted {V : Type} (m : gomap V) :
  NoDup (keys m) ->
  StronglySorted Z.lt (sortedKeys m)
  /\ (forall k, In k (sortedKeys m) <-> In k (keys m))
  /\ List.length (sortedKeys m) = List.length m
  /\ (forall m', Permutation m m' -> sortedKeys m' = sortedKeys m).
Proof.
  intro Hn. unfold sortedKeys.
  pose proof (sort_Ints_perm (keys m)) as Hp.
  split; [| split; [| split]].
  - apply sorted_nodup_strict; [apply sort_Ints_sorted |].
    apply (Permutation_NoDup (l := keys m)); [now symmetry | exact Hn].
  - intro k. split; apply Permutation_in; [exact Hp | now symmetry].
  - rewrite (Permutation_length Hp). unfold keys. apply length_map.
  - intros m' Hm. apply sort_Ints_order_free. unfold keys.
    apply Permutation_map. now symmetry.
Qed.

Lemma sortedKeys_sorted_witness :
  sortedKeys [(3, str "c"); (1, str "a"); (2, str "b")] = [1; 2; 3]
  /\ sortedKeys [(2, str "b"); (3, str "c"); (1, str "a")] = [1; 2; 3].
Proof.
  assert (Hn : NoDup (keys [(3, str "c"); (1, str "a"); (2, str "b")])).
  { repeat constructor; simpl; intuition lia. }
  destruct (sortedKeys_sorted _ Hn) as [_ [_ [_ Hfree]]].
  split; [reflexivity |].
  apply (Hfree [(2, str "b"); (3, str "c"); (1, str "a")]).
  change [(3, str "c"); (1, str "a"); (2, str "b")]
    with ([(3, str "c"); (1, str "a")] ++ [(2, str "b")]).
  apply Permutation_sym. apply Permutation_cons_append.
Defined.

End SortedKeys.

Section MarkupList.

Import TextTest Harness.

Lemma map_get_put_same {V : Type} (m : gomap (list V)) (k : Z) (v : list V) :
  map_get (map_put m k v) k = v.
Proof.
  induction m as [|[k' v'] m IH]; simpl.
  - now rewrite Z.eqb_refl.
  - destruct (Z.eqb_spec k' k); simpl.
    + now rewrite Z.eqb_refl.
    + destruct (Z.eqb_spec k' k); [lia | exact IH].
Qed.

Lemma map_get_put_other {V : Type} (m : gomap (list V)) (k q : Z) (v : list V) :
  q <> k -> map_get (map_put m k v) q = map_get m q.
Proof.
  intro Hq. induction m as [|[k' v'] m IH]; simpl.
  - destruct (Z.eqb_spec k q); [lia | reflexivity].
  - destruct (Z.eqb_spec k' k); simpl.
    + subst k'. destruct (Z.eqb_spec k q); [lia | reflexivity].
    + destruct (Z.eqb_spec k' q); [reflexivity | exact IH].
Qed.

Lemma keys_map_put {V : Type} (m : gomap V) (k : Z) (v : V) (q : Z) :
  In q (keys (map_put m k v)) <-> q = k \/ In q (keys m).
Proof.
  induction m as [|[k' v'] m IH]; simpl; [intuition |].
  destruct (Z.eqb_spec k' k); simpl; [subst; intuition |].
  rewrite IH. intuition.
Qed.

Lemma NoDup_map_put {V : Type} (m : gomap V) (k : Z) (v : V) :
  NoDup (keys m) -> NoDup (keys (map_put m k v)).
Proof.
  induction m as [|[k' v'] m IH]; simpl; intro Hn.
  - constructor; [intros [] | constructor].
  - inversion Hn as [| ? ? Hnot Hn']; subst.
    destruct (Z.eqb_spec k' k); simpl.
    + subst. now constructor.
    + constructor; [| now apply IH].
      intro Hin. apply keys_map_put in Hin. destruct Hin; [lia | auto].
Qed.

Lemma reachable_NoDup (l : markupList) :
  reachable l -> NoDup (keys (pageMatches l)).
Proof.
  induction 1; simpl; [constructor | assumption | now apply NoDup_map_put].
Qed.

Lemma map_get_In {V : Type} (m : gomap (list V)) (q : Z) :
  map_get m q <> [] -> In (q, map_get m q) m.
Proof.
  induction m as [|[k' v'] m IH]; simpl; [congruence |].
  destruct (Z.eqb_spec k' q); [subst; now left | right; now apply IH].
Qed.

Lemma In_map_get {V : Type} (m : gomap (list V)) (q : Z) (v : list V) :
  NoDup (keys m) -> In (q, v) m -> map_get m q = v.
Proof.
  induction m as [|[k' v'] m IH]; simpl; intros Hn Hin; [destruct Hin |].
  inversion Hn as [| ? ? Hnot Hn']; subst.
  destruct Hin as [Heq | Hin].
  - injection Heq as -> ->. now rewrite Z.eqb_refl.
  - destruct (Z.eqb_spec k' q); [| now apply IH].
    subst. exfalso. apply Hnot. unfold keys.
    change q with (fst (q, v)). now apply in_map.
Qed.

Lemma nonempty_test {V : Type} (v : list V) :
  negb (len v =? 0) = true <-> v <> [].
Proof.
  unfold len. destruct v; simpl; split; congruence.
Qed.

Lemma NoDup_keys_filter {V : Type} (f : Z * V -> bool) (m : gomap V) :
  NoDup (keys m) -> NoDup (keys (filter f m)).
Proof.
  induction m as [|e m IH]; simpl; intro Hn; [constructor |].
  inversion Hn as [| ? ? Hnot Hn']; subst.
  destruct (f e); simpl; [| now apply IH].
  constructor; [| now apply IH]. intro Hin. apply Hnot.
  unfold keys in *. apply in_map_iff in Hin. destruct Hin as [e' [He Hin]].
  apply filter_In in Hin. apply in_map_iff. exists e'. tauto.
Qed.

Lemma pageNums_iff (l : markupList) (q : Z) :
  NoDup (keys (pageMatches l)) ->
  In q (pageNums l) <-> map_get (pageMatches l) q <> [].
Proof.
  intro Hn. unfold pageNums.
  assert (Hp := sort_Ints_perm
            (keys (filter (fun e => negb (len (snd e) =? 0)) (pageMatches l)))).
  split.
  - intro Hin. apply (Permutation_in _ Hp) in Hin.
    unfold keys in Hin. apply in_map_iff in Hin.
    destruct Hin as [[q' v] [Hq Hin]]. simpl in Hq. subst q'.
    apply filter_In in Hin. destruct Hin as [Hin Hv]. simpl in Hv.
    apply nonempty_test in Hv. now rewrite (In_map_get _ _ _ Hn Hin).
  - intro Hne. apply (Permutation_in _ (Permutation_sym Hp)).
    unfold keys. apply in_map_iff. exists (q, map_get (pageMatches l) q).
    split; [reflexivity |]. apply filter_In. split; [now apply map_get_In |].
    simpl. now apply nonempty_test.
Qed.

(** [addMatch] appends the match to the matches of the current page and
    leaves every other page, the current page number and the input path as
    they are. *)
Theorem addMatch_appends_to_current_page
  (l : markupList) (term : gostring) (bbox : PdfRectangle) :
  map_get (pageMatches (addMatch l term bbox)) (pageNum l) =
    map_get (pageMatches l) (pageNum l) ++ [mkMatch term bbox]
  /\ (forall q, q <> pageNum l ->
        map_get (pageMatches (addMatch l term bbox)) q = map_get (pageMatches l) q)
  /\ pageNum (addMatch l term bbox) = pageNum l
  /\ inPath (addMatch l term bbox) = inPath l.
Proof.
  simpl. split; [apply map_get_put_same |]. split; [| split; reflexivity].
  intros q Hq. now apply map_get_put_other.
Qed.

(** For every markup list a test can build, [pageNums] is strictly
    increasing and lists exactly the pages that have a match: [addMatch]
    adds the current page to it and nothing else, [setPageNum] alone adds
    nothing, and a new list has no page. *)
Theorem pageNums_lists_matched_pages (l : markupList) :
  reachable l ->
  StronglySorted Z.lt (pageNums l)
  /\ (forall q, In q (pageNums l) <-> map_get (pageMatches l) q <> [])
  /\ (forall term bbox q,
        In q (pageNums (addMatch l term bbox)) <-> q = pageNum l \/ In q (pageNums l))
  /\ (forall p, pageNums (setPageNum l p) = pageNums l)
  /\ (forall path, pageNums (createMarkupList path) = []).
Proof.
  intro Hr. pose proof (reachable_NoDup l Hr) as Hn.
  split; [| split; [| split; [| split]]].
  - unfold pageNums. apply sorted_nodup_strict; [apply sort_Ints_sorted |].
    eapply Permutation_NoDup; [symmetry; apply sort_Ints_perm |].
    now apply NoDup_keys_filter.
  - intro q. now apply pageNums_iff.
  - intros term bbox q.
    rewrite (pageNums_iff (addMatch l term bbox))
      by (apply reachable_NoDup; now constructor).
    rewrite (pageNums_iff l) by exact Hn.
    simpl. destruct (Z.eq_dec q (pageNum l)) as [-> | Hq].
    + rewrite map_get_put_same. split; [now left |]. intros _ Habs.
      now destruct (map_get (pageMatches l) (pageNum l)).
    + rewrite map_get_put_other by exact Hq. tauto.
  - reflexivity.
  - reflexivity.
Qed.

Lemma pageNums_lists_matched_pages_witness :
  pageNums (addMatch (setPageNum
              (addMatch (setPageNum (createMarkupList (str "a.pdf")) 7)
                        (str "PRICE LIST") (r 0 0 1 1)) 2)
              (str "THING ONE") (r 0 0 1 1)) = [2; 7].
Proof.
  destruct (pageNums_lists_matched_pages
              (addMatch (setPageNum
                 (addMatch (setPageNum (createMarkupList (str "a.pdf")) 7)
                           (str "PRICE LIST") (r 0 0 1 1)) 2)
                 (str "THING ONE") (r 0 0 1 1))) as [_ _];
    [repeat constructor | reflexivity].
Defined.

End MarkupList.

(** ** The windows of testTermMarks *)

Section TermWindows.

Import TextTest MarkIndex Harness.

Lemma rune_size_le (s : gostring) : (rune_size s <= List.length s)%nat.
Proof.
  destruct s as [|b0 [|b1 [|b2 [|b3 r]]]]; simpl;
    repeat match goal with
           | |- context [if ?c then _ else _] => destruct c
           end; simpl; lia.
Qed.

(** The head of a well-formed text is a well-formed sequence, and what
    follows it is well-formed. *)
Lemma rune_size_valid (s : gostring) :
  utf8_valid s = true -> s <> [] ->
  (1 <= rune_size s)%nat /\ utf8_valid (skipn (rune_size s) s) = true.
Proof.
  intros Hv Hne. destruct s as [|b0 r0]; [congruence |].
  unfold rune_size. simpl in Hv.
  destruct (between 0 127 b0); [split; [lia | exact Hv] |].
  destruct r0 as [|b1 r1]; [discriminate |].
  destruct (between 194 223 b0).
  { apply andb_true_iff in Hv. destruct Hv as [H1 Hv]. rewrite H1.
    split; [lia | exact Hv]. }
  destruct r1 as [|b2 r2]; [discriminate |].
  destruct (between 224 239 b0).
  { apply andb_true_iff in Hv. destruct Hv as [H Hv].
    rewrite H. split; [lia | exact Hv]. }
  destruct r2 as [|b3 r3]; [discriminate |].
  apply andb_true_iff in Hv. destruct Hv as [H Hv].
  apply andb_true_iff in H. destruct H as [H H3].
  apply andb_true_iff in H. destruct H as [H H2].
  apply andb_true_iff in H. destruct H as [H0 H1].
  rewrite H0, H1, H2, H3. split; [simpl; lia | exact Hv].
Qed.

Lemma runes_fuel_concat (fuel : nat) (s : gostring) :
  (List.length s <= fuel)%nat -> utf8_valid s = true ->
  List.concat (runes_fuel fuel s) = s.
Proof.
  revert s. induction fuel as [|fuel IH]; intros s Hlen Hv.
  - destruct s; [reflexivity | simpl in Hlen; lia].
  - destruct s as [|b0 r0] eqn:Hs; [reflexivity |].
    rewrite <- Hs in *. 
    assert (Hne : s <> []) by (rewrite Hs; discriminate).
    destruct (rune_size_valid s Hv Hne) as [Hk Hrest].
    pose proof (rune_size_le s) as Hle.
    assert (Hstep : runes_fuel (S fuel) s =
                    firstn (rune_size s) s :: runes_fuel fuel (skipn (rune_size s) s)).
    { rewrite Hs at 1. cbn [runes_fuel]. rewrite <- Hs.
      destruct (rune_size s); [lia | reflexivity]. }
    rewrite Hstep. simpl. rewrite IH.
    + apply firstn_skipn.
    + rewrite length_skipn. lia.
    + exact Hrest.
Qed.

Lemma runes_fuel_nonempty (fuel : nat) (s : gostring) :
  Forall (fun r => r <> []) (runes_fuel fuel s).
Proof.
  revert s. induction fuel as [|fuel IH]; intro s; simpl; [constructor |].
  destruct s as [|b0 r0]; [constructor |].
  destruct (rune_size (b0 :: r0)) as [|k] eqn:Hk.
  - constructor; [discriminate | apply IH].
  - constructor; [discriminate | apply IH].
Qed.

(** [string([]rune(text)) == text] for a well-formed text, and no rune is
    encoded by an empty string. *)
Lemma runes_of_valid (text : gostring) :
  utf8_valid text = true ->
  List.concat (runes_of text) = text /\ Forall (fun r => r <> []) (runes_of text).
Proof.
  intro Hv. split; [now apply runes_fuel_concat | apply runes_fuel_nonempty].
Qed.

Lemma slice_middle (a m z : gostring) :
  slice (a ++ m ++ z) (len a) (len a + len m) = Some m.
Proof.
  rewrite slice_defined.
  - f_equal. replace (len a + len m - len a) with (len m) by lia.
    unfold len. rewrite !Nat2Z.id, skipn_app, skipn_all, Nat.sub_diag. simpl.
    rewrite firstn_app, firstn_all, Nat.sub_diag. simpl. apply app_nil_r.
  - pose proof (len_nonneg a). pose proof (len_nonneg m). lia.
  - rewrite !len_app. pose proof (len_nonneg z). lia.
Qed.

Lemma len_concat_ge (rs : list gostring) :
  Forall (fun r => r <> []) rs -> len rs <= len (List.concat rs).
Proof.
  induction 1 as [|r rs Hr _ IH]; simpl; [unfold len; simpl; lia |].
  rewrite len_app. unfold len in *. cbn [List.length].
  destruct r; [congruence | cbn [List.length]; lia].
Qed.

(** The window of [n] runes at rune [ofs] is the byte range of those runes
    in the text. *)
Lemma window_is_term (runes : list gostring) (ofs n : nat) :
  (ofs + n <= List.length runes)%nat ->
  slice (List.concat runes) (fst (window runes ofs n)) (snd (window runes ofs n))
  = Some (List.concat (firstn n (skipn ofs runes))).
Proof.
  intro Hin. unfold window. cbn [fst snd].
  rewrite firstn_plus, List.concat_app, len_app.
  rewrite <- (firstn_skipn ofs runes) at 1.
  rewrite <- (firstn_skipn n (skipn ofs runes)) at 1.
  rewrite !List.concat_app. apply slice_middle.
Qed.

Lemma window_leaves_tail (runes : list gostring) (ofs n : nat) :
  Forall (fun r => r <> []) runes ->
  (ofs + n <= List.length runes)%nat ->
  snd (window runes ofs n) + (len runes - Z.of_nat (ofs + n))
  <= len (List.concat runes).
Proof.
  intros Hall Hin. unfold window. cbn [snd].
  rewrite <- (firstn_skipn (ofs + n) runes) at 3.
  rewrite List.concat_app, len_app.
  assert (Htail : len (skipn (ofs + n) runes)
                  <= len (List.concat (skipn (ofs + n) runes))).
  { apply len_concat_ge. rewrite <- (firstn_skipn (ofs + n) runes) in Hall.
    apply Forall_app in Hall. tauto. }
  unfold len in *. rewrite length_skipn in Htail. lia.
Qed.

Lemma termWindows_In (text : gostring) (n : Z) (ws : list (Z * Z)) (w : Z * Z) :
  0 <= n -> termWindows text n = Some ws -> In w ws ->
  exists ofs : nat,
    w = window (runes_of text) ofs (Z.to_nat (Z.min n (RuneCountInString text / 2)))
    /\ Z.of_nat ofs < RuneCountInString text
                     - 2 * Z.min n (RuneCountInString text / 2).
Proof.
  intros Hn Hws Hin. unfold termWindows in Hws. unfold RuneCountInString.
  destruct (len text <? 2); [injection Hws as <-; destruct Hin |].
  destruct (Z.ltb_spec n 0); [lia |].
  remember (if len (runes_of text) / 2 <? n then len (runes_of text) / 2 else n)
    as n' eqn:Hn'.
  assert (Hmin : n' = Z.min n (len (runes_of text) / 2)).
  { subst n'. destruct (Z.ltb_spec (len (runes_of text) / 2) n); lia. }
  remember (len (runes_of text) - 2 * n') as count eqn:Hcount.
  cbv zeta in Hws.
  destruct (forallb _ _); [| discriminate]. injection Hws as <-.
  apply in_map_iff in Hin. destruct Hin as [ofs [Hw Hofs]].
  apply in_seq in Hofs. exists ofs. rewrite <- Hmin.
  split; [now symmetry | lia].
Qed.

(** On a well-formed text and for a width [n >= 0], [testTermMarks] does not
    panic. *)
Lemma termWindows_runs (text : gostring) (n : Z) :
  utf8_valid text = true -> 0 <= n -> exists ws, termWindows text n = Some ws.
Proof.
  intros Hv Hn. unfold termWindows.
  destruct (len text <? 2); [now eexists |].
  destruct (Z.ltb_spec n 0); [lia |].
  destruct (runes_of_valid text Hv) as [Hcat Hall].
  remember (if len (runes_of text) / 2 <? n then len (runes_of text) / 2 else n)
    as n' eqn:Hn'.
  assert (Hmin : n' = Z.min n (len (runes_of text) / 2)).
  { subst n'. destruct (Z.ltb_spec (len (runes_of text) / 2) n); lia. }
  assert (Hdiv : 0 <= len (runes_of text) / 2)
    by (apply Z.div_pos; [apply len_nonneg | lia]).
  remember (len (runes_of text) - 2 * n') as count eqn:Hcount.
  cbv zeta.
  match goal with
  | |- context [forallb ?f ?l] =>
      assert (Hall' : forallb f l = true); [| rewrite Hall'; now eexists]
  end.
  apply forallb_forall. intros w Hin.
  apply in_map_iff in Hin. destruct Hin as [ofs [Hw Hofs]].
  apply in_seq in Hofs. apply Z.leb_le.
  assert (Hin' : (ofs + Z.to_nat n' <= List.length (runes_of text))%nat)
    by (unfold len in *; lia).
  pose proof (window_is_term (runes_of text) ofs (Z.to_nat n') Hin') as Hterm.
  rewrite Hcat, Hw in Hterm.
  apply slice_some in Hterm. tauto.
Qed.

(** For a well-formed text, each range [(ofs0, ofs1)] that [testTermMarks]
    queries is a byte range of the text cut at rune boundaries, and
    [text[ofs0:ofs1]] is the term: the [min(n, runes/2)] consecutive runes
    of the window. With a width of 1 or more and a text of 2 runes or
    more the range is not empty. *)
Theorem termWindows_are_terms (text : gostring) (n : Z) :
  utf8_valid text = true -> 0 <= n ->
  exists ws,
    termWindows text n = Some ws /\
    forall w, In w ws ->
      0 <= fst w /\ fst w <= snd w /\ snd w <= len text
      /\ (1 <= n -> 2 <= RuneCountInString text -> fst w < snd w)
      /\ exists ofs : nat,
           w = window (runes_of text) ofs
                 (Z.to_nat (Z.min n (RuneCountInString text / 2)))
           /\ slice text (fst w) (snd w) =
                Some (List.concat
                        (firstn (Z.to_nat (Z.min n (RuneCountInString text / 2)))
                                (skipn ofs (runes_of text)))).
Proof.
  intros Hv Hn.
  destruct (termWindows_runs text n Hv Hn) as [ws Hws].
  exists ws. split; [exact Hws |]. intros w Hin.
  destruct (termWindows_In text n ws w Hn Hws Hin) as [ofs [Hw Hofs]].
  destruct (runes_of_valid text Hv) as [Hcat Hall].
  unfold RuneCountInString in *.
  set (runes := runes_of text) in *.
  set (n' := Z.min n (len runes / 2)) in *.
  assert (Hdiv : 0 <= len runes / 2)
    by (apply Z.div_pos; [apply len_nonneg | lia]).
  assert (Hn' : 0 <= n') by (subst n'; lia).
  assert (Hin' : (ofs + Z.to_nat n' <= List.length runes)%nat)
    by (unfold len in *; lia).
  pose proof (window_is_term runes ofs (Z.to_nat n') Hin') as Hterm.
  rewrite Hcat in Hterm. rewrite <- Hw in Hterm.
  pose proof (slice_some _ _ _ _ Hterm) as [Hb1 [Hb2 _]].
  split; [lia |]. split; [lia |]. split; [lia |]. split.
  - intros H1 H2. rewrite Hw.
    apply (window_inside runes ofs (Z.to_nat n') Hall); [| exact Hin'].
    assert (1 <= len runes / 2)
      by (apply Z.div_le_lower_bound; lia).
    subst n'. lia.
  - exists ofs. split; [exact Hw | exact Hterm].
Qed.

Lemma termWindows_are_terms_witness :
  exists ws, termWindows (str "Hello World!") 3 = Some ws /\ In (2, 5) ws.
Proof.
  destruct (termWindows_are_terms (str "Hello World!") 3) as [ws [Hws _]];
    [reflexivity | lia |].
  exists ws. split; [exact Hws |].
  vm_compute in Hws. injection Hws as <-. simpl. tauto.
Defined.

(** [testTermMarks] never queries the end of the text: for a well-formed
    text, every range it queries for the width [n] ends at least
    [min(n, runes/2) + 1] bytes before the end. A text of one rune (and 2
    bytes or more) makes it query the empty range [(0, 0)]. *)
Theorem termWindows_leave_tail (text : gostring) (n : Z) :
  utf8_valid text = true -> 0 <= n ->
  exists ws,
    termWindows text n = Some ws
    /\ (forall w, In w ws ->
          snd w + Z.min n (RuneCountInString text / 2) + 1 <= len text)
    /\ (RuneCountInString text = 1 -> 2 <= len text -> ws = [(0, 0)]).
Proof.
  intros Hv Hn.
  destruct (termWindows_runs text n Hv Hn) as [ws Hws].
  exists ws. split; [exact Hws |]. split.
  - intros w Hin.
    destruct (termWindows_In text n ws w Hn Hws Hin) as [ofs [Hw Hofs]].
    destruct (runes_of_valid text Hv) as [Hcat Hall].
    unfold RuneCountInString in *.
    set (runes := runes_of text) in *.
    set (n' := Z.min n (len runes / 2)) in *.
    assert (Hdiv : 0 <= len runes / 2)
      by (apply Z.div_pos; [apply len_nonneg | lia]).
    assert (Hin' : (ofs + Z.to_nat n' <= List.length runes)%nat)
      by (unfold len in *; lia).
    pose proof (window_leaves_tail runes ofs (Z.to_nat n') Hall Hin') as Ht.
    rewrite Hcat, <- Hw in Ht. unfold len in *. lia.
  - intros Hone Htwo. unfold termWindows in Hws.
    destruct (Z.ltb_spec (len text) 2); [lia |].
    destruct (Z.ltb_spec n 0); [lia |].
    unfold RuneCountInString in Hone. rewrite Hone in Hws.
    change (1 / 2) with 0 in Hws. cbv zeta in Hws.
    assert (Hcap : (if 0 <? n then 0 else n) = 0)
      by (destruct (Z.ltb_spec 0 n); lia).
    rewrite Hcap in Hws. simpl in Hws.
    destruct (len [] <=? len text); [| discriminate]. now injection Hws as <-.
Qed.

Lemma termWindows_leave_tail_witness :
  termWindows e_acute 1 = Some [(0, 0)].
Proof.
  destruct (termWindows_leave_tail e_acute 1) as [ws [Hws [_ Hone]]];
    [reflexivity | lia |].
  rewrite Hws. f_equal. apply Hone; [reflexivity | vm_compute; discriminate].
Defined.

End TermWindows.

(** ** getBBox *)

Section GetBBoxFacts.

Import TextTest MarkIndex Harness.

Lemma HasPrefix_slice (s p : gostring) :
  HasPrefix s p = true <-> slice s 0 (len p) = Some p.
Proof.
  split.
  - intro H. apply HasPrefix_inv in H. destruct H as [t ->].
    change (p ++ t) with ([] ++ p ++ t). apply (slice_middle [] p t).
  - intro H. apply slice_some in H. destruct H as [_ [Hle Hp]].
    rewrite Z.sub_0_r in Hp. simpl in Hp. unfold len in Hp.
    rewrite Nat2Z.id in Hp.
    rewrite <- (firstn_skipn (List.length p) s), <- Hp. apply HasPrefix_app.
Qed.

Lemma slice_cons (b : ascii) (s t : gostring) (j k : Z) :
  0 <= j -> 0 <= k ->
  slice (b :: s) (j + 1) (j + 1 + k) = Some t <-> slice s j (j + k) = Some t.
Proof.
  intros Hj Hk. unfold slice, len. cbn [List.length]. rewrite Nat2Z.inj_succ.
  replace (j + 1 + k - (j + 1)) with k by lia.
  replace (j + k - j) with k by lia.
  replace (Z.to_nat (j + 1)) with (S (Z.to_nat j)) by lia. cbn [skipn].
  destruct (Z.leb_spec 0 (j + 1)); [| lia].
  destruct (Z.leb_spec 0 j); [| lia].
  destruct (Z.leb_spec (j + 1) (j + 1 + k)); [| lia].
  destruct (Z.leb_spec j (j + k)); [| lia]. cbn [andb].
  destruct (Z.leb_spec (j + 1 + k) (Z.succ (Z.of_nat (List.length s))));
    destruct (Z.leb_spec (j + k) (Z.of_nat (List.length s)));
    try lia; reflexivity.
Qed.

(** [Index_from] finds the first place where [substr] occurs, if any. *)
Lemma Index_from_spec (s substr : gostring) (i : Z) :
  (Index_from s substr i = -1 /\
   forall j, 0 <= j -> slice s j (j + len substr) <> Some substr)
  \/ (i <= Index_from s substr i
      /\ slice s (Index_from s substr i - i)
                (Index_from s substr i - i + len substr) = Some substr
      /\ forall j, 0 <= j < Index_from s substr i - i ->
                   slice s j (j + len substr) <> Some substr).
Proof.
  revert i. pose proof (len_nonneg substr) as Hl.
  induction s as [|b s IH]; intro i; cbn [Index_from].
  - destruct (HasPrefix [] substr) eqn:Hp.
    + right. rewrite Z.sub_diag. split; [lia |].
      split; [now apply HasPrefix_slice |]. intros j Hj. lia.
    + left. split; [reflexivity |]. intros j Hj Hs.
      apply slice_some in Hs. destruct Hs as [H1 [H2 _]].
      unfold len in H2 at 2. simpl in H2.
      assert (Hz : len substr = 0) by lia.
      destruct substr; [discriminate Hp |].
      unfold len in Hz. cbn [List.length] in Hz. lia.
  - destruct (HasPrefix (b :: s) substr) eqn:Hp.
    + right. rewrite Z.sub_diag. split; [lia |].
      split; [now apply HasPrefix_slice |]. intros j Hj. lia.
    + assert (Hhead : slice (b :: s) 0 (0 + len substr) <> Some substr).
      { intro Hs. apply HasPrefix_slice in Hs. congruence. }
      destruct (IH (i + 1)) as [[Hnone Hno] | [Hge [Hs Hfirst]]].
      * left. split; [exact Hnone |]. intros j Hj.
        destruct (Z.eq_dec j 0) as [-> | Hj0]; [exact Hhead |].
        replace j with (j - 1 + 1) by lia.
        rewrite slice_cons by lia. apply Hno. lia.
      * right. split; [lia |]. split.
        -- replace (Index_from s substr (i + 1) - i)
             with (Index_from s substr (i + 1) - (i + 1) + 1) by lia.
           rewrite slice_cons by lia. exact Hs.
        -- intros j Hj.
           destruct (Z.eq_dec j 0) as [-> | Hj0]; [exact Hhead |].
           replace j with (j - 1 + 1) by lia.
           rewrite slice_cons by lia. apply Hfirst. lia.
Qed.

(** [getBBox] fails with "text has no match" exactly when [term] does not
    occur in [text], whatever the marks; when it succeeds, the box is the
    one [BBox] gives for the marks that [RangeOffset] returns for the byte
    range of the first occurrence of [term] in [text]. *)
Theorem getBBox_first_occurrence
  (E : Type) (RangeOffset_ : TextMarkArray -> Z -> Z -> E + TextMarkArray)
  (BBox_ : TextMarkArray -> option PdfRectangle)
  (text : gostring) (textMarks : TextMarkArray) (term : gostring) :
  (getBBox E RangeOffset_ BBox_ text textMarks term = inl NoTextMatch <->
     forall j, 0 <= j -> slice text j (j + len term) <> Some term)
  /\ (forall bbox,
        getBBox E RangeOffset_ BBox_ text textMarks term = inr bbox ->
        exists start spanMarks,
          slice text start (start + len term) = Some term
          /\ (forall j, 0 <= j < start -> slice text j (j + len term) <> Some term)
          /\ RangeOffset_ textMarks start (start + len term) = inr spanMarks
          /\ BBox_ spanMarks = Some bbox).
Proof.
  unfold getBBox, Index.
  destruct (Index_from_spec text term 0) as [[Hnone Hno] | [Hge [Hs Hfirst]]].
  - rewrite Hnone. simpl. split; [split; auto | discriminate].
  - rewrite Z.sub_0_r in Hs, Hfirst.
    destruct (Z.ltb_spec (Index_from text term 0) 0) as [Hneg | _]; [lia |].
    split.
    + split.
      * intro Habs. exfalso.
        destruct (RangeOffset_ textMarks _ _) as [e | spanMarks];
          [discriminate |].
        destruct (BBox_ spanMarks); discriminate.
      * intro Hno. exfalso. now apply (Hno (Index_from text term 0)).
    + intros bbox Hok.
      exists (Index_from text term 0).
      destruct (RangeOffset_ textMarks _ _) as [e | spanMarks] eqn:Hr;
        [discriminate |].
      destruct (BBox_ spanMarks) as [box |] eqn:Hb; [| discriminate].
      injection Hok as <-. exists spanMarks. auto.
Qed.

End GetBBoxFacts.

(** ** pdfColorToGoColor: the fallback and the channels *)

Section ColorChannels.

Variable unrepresentable : float -> Z.

(** [uint8(f)] is the integer part of [f] whenever that is a byte: [f] is
    a zero, or a finite [m * 2^e] whose integer part (the fraction is
    discarded, towards zero) lies in 0..255. *)
Lemma uint8_integer_part (f : float) :
  0 <= Utils.uint8 unrepresentable f <= 255
  /\ (forall s, Prim2SF f = S754_zero s -> Utils.uint8 unrepresentable f = 0)
  /\ (forall m e, Prim2SF f = S754_finite false m e -> 0 <= e ->
        Zpos m * 2 ^ e <= 255 ->
        Utils.uint8 unrepresentable f = Zpos m * 2 ^ e)
  /\ (forall m e, Prim2SF f = S754_finite false m e -> e < 0 ->
        Zpos m < 256 * 2 ^ (- e) ->
        Utils.uint8 unrepresentable f * 2 ^ (- e) <= Zpos m
          < (Utils.uint8 unrepresentable f + 1) * 2 ^ (- e))
  /\ (forall m e, Prim2SF f = S754_finite true m e -> e < 0 ->
        Zpos m < 2 ^ (- e) ->
        Utils.uint8 unrepresentable f = 0).
Proof.
  split; [apply uint8_range |].
  unfold Utils.uint8, Utils.float_trunc.
  split; [| split; [| split]].
  - intros s H. rewrite H. reflexivity.
  - intros m e H He Hle. rewrite H.
    destruct (Z.leb_spec 0 e); [| lia].
    assert (0 < 2 ^ e) by (apply Z.pow_pos_nonneg; lia).
    destruct (Z.leb_spec 0 (Zpos m * 2 ^ e)); [| nia].
    destruct (Z.leb_spec (Zpos m * 2 ^ e) 255); [| lia]. reflexivity.
  - intros m e H He Hlt. rewrite H.
    destruct (Z.leb_spec 0 e); [lia |].
    assert (Hd : 0 < 2 ^ (- e)) by (apply Z.pow_pos_nonneg; lia).
    set (d := 2 ^ (- e)) in *. set (q := Zpos m / d).
    assert (Hq0 : 0 <= q) by (apply Z.div_pos; lia).
    assert (Hq1 : q < 256) by (apply Z.div_lt_upper_bound; lia).
    pose proof (Z.mul_div_le (Zpos m) d Hd) as Hlo.
    pose proof (Z.mul_succ_div_gt (Zpos m) d Hd) as Hhi.
    fold q in Hlo, Hhi.
    destruct (Z.leb_spec 0 q); [| lia].
    destruct (Z.leb_spec q 255); [| lia]. simpl. nia.
  - intros m e H He Hlt. rewrite H.
    destruct (Z.leb_spec 0 e); [lia |].
    rewrite Z.div_small by lia. reflexivity.
Qed.

End ColorChannels.

(** [pdfColorToGoColor] returns [color.Black] when the colorspace is nil,
    when the color is nil, when [ColorToRGB] returns an error, and when the
    converted color is not a [*PdfColorDeviceRGB]; it panics when the
    converted color is a nil [*PdfColorDeviceRGB]; for a pointer to
    [(r, g, b)] it returns the opaque (alpha 255) NRGBA color whose
    channels are bytes, each the integer part of its component times 255
    (computed in binary64) whenever that integer part is a byte: full
    intensity gives 255, half intensity 127 and none 0. *)
Theorem pdfColorToGoColor_fallback_and_channels
  (unrepresentable : float -> Z) (OtherColor model_error : Type)
  (space : option (Utils.PdfColorspace OtherColor model_error))
  (c : option (Utils.PdfColor OtherColor)) :
  let result := Utils.pdfColorToGoColor unrepresentable OtherColor model_error space c in
  (space = None -> result = Some Utils.Black)
  /\ (c = None -> result = Some Utils.Black)
  /\ (forall sp col conv e,
        space = Some sp -> c = Some col ->
        Utils.ColorToRGB _ _ sp col = (conv, Some e) -> result = Some Utils.Black)
  /\ (forall sp col conv,
        space = Some sp -> c = Some col ->
        Utils.ColorToRGB _ _ sp col = (conv, None) ->
        (forall p, conv <> Some (Utils.PdfColorDeviceRGB p)) ->
        result = Some Utils.Black)
  /\ (forall sp col,
        space = Some sp -> c = Some col ->
        Utils.ColorToRGB _ _ sp col = (Some (Utils.PdfColorDeviceRGB None), None) ->
        result = None)
  /\ (forall sp col r g b,
        space = Some sp -> c = Some col ->
        Utils.ColorToRGB _ _ sp col
          = (Some (Utils.PdfColorDeviceRGB (Some (r, g, b))), None) ->
        exists R G B,
          result = Some (Utils.NRGBA R G B 255)
          /\ forall x k,
               In (x, k) [((r * 255)%float, R); ((g * 255)%float, G);
                          ((b * 255)%float, B)] ->
               0 <= k <= 255
               /\ (forall s, Prim2SF x = S754_zero s -> k = 0)
               /\ (forall m e, Prim2SF x = S754_finite false m e -> 0 <= e ->
                     Zpos m * 2 ^ e <= 255 -> k = Zpos m * 2 ^ e)
               /\ (forall m e, Prim2SF x = S754_finite false m e -> e < 0 ->
                     Zpos m < 256 * 2 ^ (- e) ->
                     k * 2 ^ (- e) <= Zpos m < (k + 1) * 2 ^ (- e))
               /\ (forall m e, Prim2SF x = S754_finite true m e -> e < 0 ->
                     Zpos m < 2 ^ (- e) -> k = 0))
  /\ Utils.pdfColorToGoColor unrepresentable OtherColor model_error
       (Some (Utils.sameColor OtherColor model_error))
       (Some (Utils.PdfColorDeviceRGB (Some (1, 0.5, 0)%float)))
     = Some (Utils.NRGBA 255 127 0 255).
Proof.
  cbv zeta. unfold Utils.pdfColorToGoColor.
  split; [| split; [| split; [| split; [| split; [| split]]]]].
  - intros ->. reflexivity.
  - intros ->. destruct space; reflexivity.
  - intros sp col conv e -> -> H. rewrite H. reflexivity.
  - intros sp col conv -> -> H Hnot. rewrite H.
    destruct conv as [[p | o] |]; try reflexivity.
    now contradiction (Hnot p).
  - intros sp col -> -> H. rewrite H. reflexivity.
  - intros sp col r g b -> -> H. rewrite H.
    do 3 eexists. split; [reflexivity |].
    intros x k Hin.
    destruct Hin as [Heq | [Heq | [Heq | []]]]; injection Heq as <- <-;
      apply uint8_integer_part.
  - reflexivity.
Qed.
